(** * superchain: version resolution and scope merge of the registry

    A shallow embedding of [superchain/superchain.go]: the [AddressSet]
    operations [Get] and [Versions], the per-contract [resolve], the bundle
    operation [ContractImplementations.Resolve] and the in-place
    [ContractImplementations.Merge].

    Go strings are byte strings and are read as [string]; a Go [int] result of
    a three-way comparison is read as a [Z]; a Go map is a [gmap].  The
    package [golang.org/x/mod/semver], which the registry imports, is
    embedded in [Module semver] below. *)

From Stdlib Require Import ZArith Lia Ascii String List.
From stdpp Require Import base option strings list sorting gmap.

Local Open Scope string_scope.

(** ** Package [strings] *)

Module strings.

(** [cut s prefix] is [Some rest] when [s = prefix ++ rest]. *)
Fixpoint cut (s prefix : string) {struct prefix} : option string :=
  match prefix, s with
  | EmptyString, _ => Some s
  | String a prefix', String b s' =>
      if Ascii.eqb a b then cut s' prefix' else None
  | String _ _, EmptyString => None
  end.

Definition HasPrefix (s prefix : string) : bool :=
  match cut s prefix with Some _ => true | None => false end.

Definition TrimPrefix (s prefix : string) : string :=
  match cut s prefix with Some rest => rest | None => s end.

End strings.

(** ** Package [golang.org/x/mod/semver]

    The functions of the package that [superchain.go] calls ([Compare],
    [Sort], [IsValid]) with the helpers they are built from.  Index loops
    over a string are written as recursions on the string; the loop of
    [comparePrerelease], which peels one dot-separated identifier off each
    argument per iteration, runs over the two identifier lists. *)

Module semver.

Record parsed : Type := mkParsed {
  major : string;
  minor : string;
  patch : string;
  short : string;
  prerelease : string;
  build : string
}.

Definition isDigit (c : ascii) : bool :=
  (Ascii.leb "0" c && Ascii.leb c "9")%bool.

Definition isIdentChar (c : ascii) : bool :=
  (Ascii.leb "A" c && Ascii.leb c "Z"
   || Ascii.leb "a" c && Ascii.leb c "z"
   || Ascii.leb "0" c && Ascii.leb c "9"
   || Ascii.eqb c "-")%bool.

(** [digits v] splits [v] after its longest prefix of decimal digits: the
    loop [for i < len(v) && '0' <= v[i] && v[i] <= '9' { i++ }]. *)
Fixpoint digits (v : string) : string * string :=
  match v with
  | String c r =>
      if isDigit c then let (t, rest) := digits r in (String c t, rest)
      else (EmptyString, v)
  | EmptyString => (EmptyString, EmptyString)
  end.

Definition startsWith (c : ascii) (v : string) : bool :=
  match v with String c' _ => Ascii.eqb c' c | EmptyString => false end.

Definition parseInt (v : string) : option (string * string) :=
  match v with
  | EmptyString => None
  | String c _ =>
      if negb (isDigit c) then None
      else
        let (t, rest) := digits v in
        if (Ascii.eqb c "0" && negb (Nat.eqb (String.length t) 1))%bool
        then None
        else Some (t, rest)
  end.

Definition isBadNum (v : string) : bool :=
  let (t, rest) := digits v in
  (String.eqb rest "" && Nat.ltb 1 (String.length t) && startsWith "0" v)%bool.

Definition isNum (v : string) : bool :=
  let (t, rest) := digits v in String.eqb rest "".

(** The loop of [parsePrerelease]: [v] is the text not yet read, [cur] the
    identifier being read ([v[start:i]]) and [t] the text read so far
    ([v[:i]]). *)
Fixpoint prereleaseLoop (v cur t : string) : option (string * string) :=
  match v with
  | String c r =>
      if Ascii.eqb c "+" then
        if (String.eqb cur "" || isBadNum cur)%bool then None else Some (t, v)
      else if (negb (isIdentChar c) && negb (Ascii.eqb c "."))%bool then None
      else if Ascii.eqb c "." then
        if (String.eqb cur "" || isBadNum cur)%bool then None
        else prereleaseLoop r "" (t ++ ".")
      else prereleaseLoop r (cur ++ String c "") (t ++ String c "")
  | EmptyString =>
      if (String.eqb cur "" || isBadNum cur)%bool then None else Some (t, "")
  end.

Definition parsePrerelease (v : string) : option (string * string) :=
  match v with
  | String c r => if Ascii.eqb c "-" then prereleaseLoop r "" "-" else None
  | EmptyString => None
  end.

(** The loop of [parseBuild], with the same reading of [v], [cur] and [t]. *)
Fixpoint buildLoop (v cur t : string) : option (string * string) :=
  match v with
  | String c r =>
      if (negb (isIdentChar c) && negb (Ascii.eqb c "."))%bool then None
      else if Ascii.eqb c "." then
        if String.eqb cur "" then None else buildLoop r "" (t ++ ".")
      else buildLoop r (cur ++ String c "") (t ++ String c "")
  | EmptyString => if String.eqb cur "" then None else Some (t, "")
  end.

Definition parseBuild (v : string) : option (string * string) :=
  match v with
  | String c r => if Ascii.eqb c "+" then buildLoop r "" "+" else None
  | EmptyString => None
  end.

Definition parse (v : string) : option parsed :=
  match v with
  | EmptyString => None
  | String c v =>
      if negb (Ascii.eqb c "v") then None else
      '(major, v) ← parseInt v;
      match v with
      | EmptyString => Some (mkParsed major "0" "0" ".0.0" "" "")
      | String c v =>
          if negb (Ascii.eqb c ".") then None else
          '(minor, v) ← parseInt v;
          match v with
          | EmptyString => Some (mkParsed major minor "0" ".0" "" "")
          | String c v' =>
              if negb (Ascii.eqb c ".") then None else
              '(patch, v) ← parseInt v';
              '(prerelease, v) ←
                 (if startsWith "-" v then parsePrerelease v else Some ("", v));
              '(build, v) ←
                 (if startsWith "+" v then parseBuild v else Some ("", v));
              if negb (String.eqb v "") then None
              else Some (mkParsed major minor patch "" prerelease build)
          end
      end
  end.

Definition IsValid (v : string) : bool :=
  match parse v with Some _ => true | None => false end.

Definition compareInt (x y : string) : Z :=
  if String.eqb x y then 0%Z
  else if Nat.ltb (String.length x) (String.length y) then (-1)%Z
  else if Nat.ltb (String.length y) (String.length x) then 1%Z
  else if String.ltb x y then (-1)%Z
  else 1%Z.

(** [splitDots x] is the list of the dot-separated pieces of [x]; the
    successive results of [nextIdent] when each separator is skipped. *)
Fixpoint splitDots (x : string) : list string :=
  match x with
  | EmptyString => [EmptyString]
  | String c r =>
      if Ascii.eqb c "." then EmptyString :: splitDots r
      else match splitDots r with
           | dx :: rest => String c dx :: rest
           | [] => [String c EmptyString]
           end
  end.

(** The identifiers of a pre-release string, whose first byte ([-]) is
    skipped like every later separator. *)
Definition idents (x : string) : list string :=
  match x with
  | EmptyString => []
  | String _ r => splitDots r
  end.

(** The body of the loop of [comparePrerelease] once [dx != dy]. *)
Definition compareIdent (dx dy : string) : Z :=
  let ix := isNum dx in
  let iy := isNum dy in
  if negb (Bool.eqb ix iy) then (if ix then (-1)%Z else 1%Z)
  else if (ix && Nat.ltb (String.length dx) (String.length dy))%bool then (-1)%Z
  else if (ix && Nat.ltb (String.length dy) (String.length dx))%bool then 1%Z
  else if String.ltb dx dy then (-1)%Z
  else 1%Z.

(** [for x != "" && y != ""]: one identifier of each side per iteration. *)
Fixpoint prereleaseScan (xs ys : list string) : Z :=
  match xs, ys with
  | dx :: xs', dy :: ys' =>
      if negb (String.eqb dx dy) then compareIdent dx dy
      else prereleaseScan xs' ys'
  | [], _ => (-1)%Z
  | _ :: _, [] => 1%Z
  end.

Definition comparePrerelease (x y : string) : Z :=
  if String.eqb x y then 0%Z
  else if String.eqb x "" then 1%Z
  else if String.eqb y "" then (-1)%Z
  else prereleaseScan (idents x) (idents y).

Definition compareParsed (pv pw : parsed) : Z :=
  let c := compareInt (major pv) (major pw) in
  if negb (Z.eqb c 0) then c else
  let c := compareInt (minor pv) (minor pw) in
  if negb (Z.eqb c 0) then c else
  let c := compareInt (patch pv) (patch pw) in
  if negb (Z.eqb c 0) then c else
  comparePrerelease (prerelease pv) (prerelease pw).

Definition Compare (v w : string) : Z :=
  match parse v, parse w with
  | None, None => 0%Z
  | None, Some _ => (-1)%Z
  | Some _, None => 1%Z
  | Some pv, Some pw => compareParsed pv pw
  end.

(** [ByVersion.Less]: by [Compare], ties broken by the byte order of the
    strings. *)
Definition Less (v w : string) : bool :=
  let cmp := Compare v w in
  if negb (Z.eqb cmp 0) then Z.ltb cmp 0 else String.ltb v w.

(** [v] may stand before [w] in a sorted list: [Less w v] is false. *)
Definition ByVersion (v w : string) : Prop := Less w v = false.

#[global] Instance ByVersion_dec : RelDecision ByVersion.
Proof. intros v w. unfold ByVersion. apply _. Defined.

(** [Sort]: the list in the order of [ByVersion.Less].  [Less] is a strict
    total order on strings ([Sort_unique] below), so every correct sorting
    procedure returns this list. *)
Definition Sort (l : list string) : list string :=
  merge_sort ByVersion l.

End semver.

(** ** Three-way comparisons

    A Go comparison function returns [-1], [0] or [+1].  [Cmp3 D f] says
    that [f] is such a function and that, on the values satisfying [D], it
    is a total preorder: swapping the arguments negates the result, and
    [f x y <= 0] is transitive. *)

Record Cmp3 {A : Type} (D : A → Prop) (f : A → A → Z) : Prop := {
  cmp3_range : ∀ x y, f x y = (-1)%Z ∨ f x y = 0%Z ∨ f x y = 1%Z;
  cmp3_antisym : ∀ x y, D x → D y → f y x = (- f x y)%Z;
  cmp3_trans : ∀ x y z, D x → D y → D z →
    (f x y <= 0)%Z → (f y z <= 0)%Z → (f x z <= 0)%Z
}.

(** [if c := f ...; c != 0 { return c }; return g ...]. *)
Definition lex {A B : Type} (f : A → A → Z) (g : B → B → Z)
    (p q : A * B) : Z :=
  let c := f p.1 q.1 in
  if negb (Z.eqb c 0) then c else g p.2 q.2.

(** Lists, first difference first; a proper prefix comes first. *)
Fixpoint lexList {A : Type} (f : A → A → Z) (xs ys : list A) : Z :=
  match xs, ys with
  | [], [] => 0%Z
  | [], _ :: _ => (-1)%Z
  | _ :: _, [] => 1%Z
  | x :: xs', y :: ys' =>
      let c := f x y in
      if negb (Z.eqb c 0) then c else lexList f xs' ys'
  end.

(** An absent value comes before every present one. *)
Definition lexOption {A : Type} (f : A → A → Z) (x y : option A) : Z :=
  match x, y with
  | None, None => 0%Z
  | None, Some _ => (-1)%Z
  | Some _, None => 1%Z
  | Some a, Some b => f a b
  end.

Definition natCmp (n m : nat) : Z :=
  if Nat.eqb n m then 0%Z else if Nat.ltb n m then (-1)%Z else 1%Z.

(** The byte order of Go strings ([==] and [<]) as a three-way result. *)
Definition strCmp (x y : string) : Z :=
  if String.eqb x y then 0%Z else if String.ltb x y then (-1)%Z else 1%Z.

(** The comparisons of [semver] read through keys that the combinators
    above order. *)

(** One step of the loop of [comparePrerelease]: equal identifiers are
    passed over, different ones decide. *)
Definition identCmp (dx dy : string) : Z :=
  if String.eqb dx dy then 0%Z else semver.compareIdent dx dy.

Definition identKey (d : string) : nat * (nat * string) :=
  (if semver.isNum d then 0 else 1,
   (if semver.isNum d then String.length d else 0, d)).

(** Pre-release strings as the parser leaves them: empty, or led by [-]. *)
Definition prereleaseShape (x : string) : Prop :=
  x = "" ∨ semver.startsWith "-" x = true.

Definition prereleaseKey (x : string) : nat * list string :=
  (if String.eqb x "" then 1 else 0, semver.idents x).

Definition parsedKey (p : semver.parsed)
    : string * (string * (string * string)) :=
  (semver.major p, (semver.minor p, (semver.patch p, semver.prerelease p))).

(** [ByVersion.Less] as a three-way result: [Compare], then the bytes. *)
Definition versionCmp (v w : string) : Z :=
  lex semver.Compare strCmp (v, v) (w, w).

(** ** [superchain.go]: data *)

(** Modelled from the spec: the type [Address] is declared in another file of
    the package; it is an array of twenty bytes, read here as the number
    these bytes spell.  Its zero value is the zero address, "a legitimate,
    if degenerate, value". *)
Definition Address : Type := N.

Definition zeroAddress : Address := 0%N.

(** [AddressSet]: the entries of a Go [map[string]Address]. *)
Abbreviation AddressSet := (gmap string Address).

Module VersionedContract.

Record t : Type := mk {
  Version : string;
  Address : Address
}.

(** [VersionedContract{}] *)
Definition zero : t := mk "" zeroAddress.

#[global] Instance eq_dec : EqDecision t.
Proof. solve_decision. Defined.

End VersionedContract.

(** The seven contracts, in the order of the fields of the three structs
    that have one field per contract. *)
Inductive contract : Type :=
  | L1CrossDomainMessenger
  | L1ERC721Bridge
  | L1StandardBridge
  | L2OutputOracle
  | OptimismMintableERC20Factory
  | OptimismPortal
  | SystemConfig.

#[global] Instance contract_eq_dec : EqDecision contract.
Proof. solve_decision. Defined.

Definition contracts : list contract :=
  [L1CrossDomainMessenger; L1ERC721Bridge; L1StandardBridge; L2OutputOracle;
   OptimismMintableERC20Factory; OptimismPortal; SystemConfig].

(** The field name, as the error messages of [Resolve] spell it. *)
Definition name (r : contract) : string :=
  match r with
  | L1CrossDomainMessenger => "L1CrossDomainMessenger"
  | L1ERC721Bridge => "L1ERC721Bridge"
  | L1StandardBridge => "L1StandardBridge"
  | L2OutputOracle => "L2OutputOracle"
  | OptimismMintableERC20Factory => "OptimismMintableERC20Factory"
  | OptimismPortal => "OptimismPortal"
  | SystemConfig => "SystemConfig"
  end.

(** [ImplementationList], [ContractImplementations] and [ContractVersions]
    have the same seven fields and differ in the type of the fields only;
    they are one record, at three field types. *)
Module Fields.

Record t (T : Type) : Type := mk {
  L1CrossDomainMessenger : T;
  L1ERC721Bridge : T;
  L1StandardBridge : T;
  L2OutputOracle : T;
  OptimismMintableERC20Factory : T;
  OptimismPortal : T;
  SystemConfig : T
}.

Arguments mk {T}.
Arguments L1CrossDomainMessenger {T}.
Arguments L1ERC721Bridge {T}.
Arguments L1StandardBridge {T}.
Arguments L2OutputOracle {T}.
Arguments OptimismMintableERC20Factory {T}.
Arguments OptimismPortal {T}.
Arguments SystemConfig {T}.

End Fields.

Definition ImplementationList : Type := Fields.t VersionedContract.t.
Definition ContractVersions : Type := Fields.t string.
(** [S] is the type of a map value: the entries themselves where a function
    only reads them, a reference into a store where it writes them. *)
Definition ContractImplementations (S : Type) : Type := Fields.t S.

Section fields.

Context {T : Type}.

(** [s.<field>] *)
Definition field (r : contract) (s : Fields.t T) : T :=
  match r with
  | L1CrossDomainMessenger => Fields.L1CrossDomainMessenger s
  | L1ERC721Bridge => Fields.L1ERC721Bridge s
  | L1StandardBridge => Fields.L1StandardBridge s
  | L2OutputOracle => Fields.L2OutputOracle s
  | OptimismMintableERC20Factory => Fields.OptimismMintableERC20Factory s
  | OptimismPortal => Fields.OptimismPortal s
  | SystemConfig => Fields.SystemConfig s
  end.

(** [s.<field> = x] *)
Definition assign (r : contract) (x : T) (s : Fields.t T) : Fields.t T :=
  let 'Fields.mk a b c d e f g := s in
  match r with
  | L1CrossDomainMessenger => Fields.mk x b c d e f g
  | L1ERC721Bridge => Fields.mk a x c d e f g
  | L1StandardBridge => Fields.mk a b x d e f g
  | L2OutputOracle => Fields.mk a b c x e f g
  | OptimismMintableERC20Factory => Fields.mk a b c d x f g
  | OptimismPortal => Fields.mk a b c d e x g
  | SystemConfig => Fields.mk a b c d e f x
  end.

Definition uniform (x : T) : Fields.t T := Fields.mk x x x x x x x.

End fields.

(** [var implementations ImplementationList] *)
Definition zeroImplementationList : ImplementationList :=
  uniform VersionedContract.zero.

(** Go errors: [fmt.Errorf] without verb makes a plain error, with [%w] an
    error that wraps its argument and carries the formatted text. *)
Inductive error : Type :=
  | errorString (s : string)
  | wrapError (msg : string) (err : error).

#[global] Instance error_eq_dec : EqDecision error.
Proof. solve_decision. Defined.

Definition Error (e : error) : string :=
  match e with errorString s => s | wrapError msg _ => msg end.


(** [fmt.Errorf("<field>: %w", err)] *)
Definition wrap (field : string) (err : error) : error :=
  wrapError (field ++ ": " ++ Error err) err.

(** The two causes [resolve] reports; the spec calls them [EmptySet] and
    [Unresolvable]. *)
Definition EmptySet : error := errorString "no implementations found".
Definition Unresolvable : error := errorString "cannot resolve semver".

(** ** [superchain.go]: reading an [AddressSet] *)

Definition canonicalizeSemver (version : string) : string :=
  if negb (strings.HasPrefix version "v") then "v" ++ version else version.

Definition Get (a : AddressSet) (key : string) : Address :=
  let key := if negb (strings.HasPrefix key "v") then "v" ++ key else key in
  match a !! strings.TrimPrefix key "v" with
  | Some addr => addr
  | None => default zeroAddress (a !! key)
  end.

(** [maps.Keys]: the keys, in an order the language leaves open. *)
Definition Keys (a : AddressSet) : list string := elements (dom a).

Definition Versions (a : AddressSet) : list string :=
  let keys := Keys a in
  let keys := canonicalizeSemver <$> keys in
  semver.Sort keys.

(** The loop of [resolve] over the sorted keys, [out] being the candidate
    held so far. *)
Fixpoint scan (set : AddressSet) (version : string) (keys : list string)
    (out : VersionedContract.t) : VersionedContract.t :=
  match keys with
  | [] => out
  | k :: keys =>
      let res := semver.Compare k version in
      if (0 <=? res)%Z then
        let out := VersionedContract.mk k (Get set k) in
        if (res =? 0)%Z then out else scan set version keys out
      else scan set version keys out
  end.

Definition resolve (set : AddressSet) (version : string)
    : VersionedContract.t * option error :=
  let version := canonicalizeSemver version in
  let out := VersionedContract.zero in
  let keys := Versions set in
  if Nat.eqb (length keys) 0 then (out, Some EmptySet)
  else
    let out := scan set version keys out in
    if decide (out = VersionedContract.zero) then (out, Some Unresolvable)
    else (out, None).

(** One [if <field>, err = resolve(...); err != nil { return ... }] of
    [Resolve]; [next] is the rest of the function. *)
Definition step (r : contract) (c : ContractImplementations AddressSet)
    (versions : ContractVersions)
    (next : ImplementationList → ImplementationList * option error)
    (implementations : ImplementationList)
    : ImplementationList * option error :=
  let '(out, err) := resolve (field r c) (field r versions) in
  let implementations := assign r out implementations in
  match err with
  | Some err => (implementations, Some (wrap (name r) err))
  | None => next implementations
  end.

Definition Resolve (c : ContractImplementations AddressSet)
    (versions : ContractVersions) : ImplementationList * option error :=
  let implementations := zeroImplementationList in
  (step L1CrossDomainMessenger c versions
  (step L1ERC721Bridge c versions
  (step L1StandardBridge c versions
  (step L2OutputOracle c versions
  (step OptimismMintableERC20Factory c versions
  (step OptimismPortal c versions
  (step SystemConfig c versions
  (λ implementations, (implementations, None)))))))))
  implementations.

(** ** [superchain.go]: writing an [AddressSet]

    A Go map value is a reference to a table, and [Merge] writes through the
    references it is given.  A [store] holds the tables; a map value is
    [None] (the nil map) or the location of its table. *)

Definition ref : Type := option nat.
Abbreviation store := (gmap nat AddressSet).

(** The entries a map value gives access to; a nil map reads as empty. *)
Definition entries (σ : store) (m : ref) : AddressSet :=
  match m with
  | Some l => default ∅ (σ !! l)
  | None => ∅
  end.

(** [dst[k] = v]; [None] is the panic of an assignment into a nil map. *)
Definition mapassign (dst : ref) (k : string) (v : Address) (σ : store)
    : option store :=
  match dst with
  | Some l => Some (<[l := <[k := v]> (entries σ dst)]> σ)
  | None => None
  end.

(** [maps.Copy]: [for k, v := range src { dst[k] = v }]. *)
Definition copySemverMap (dst src : ref) (σ : store) : option store :=
  foldr (λ kv acc, acc ≫= mapassign dst kv.1 kv.2) (Some σ)
        (map_to_list (entries σ src)).

Definition Merge (c other : ContractImplementations ref) (σ : store)
    : option store :=
  σ ← copySemverMap (Fields.L1CrossDomainMessenger c)
        (Fields.L1CrossDomainMessenger other) σ;
  σ ← copySemverMap (Fields.L1ERC721Bridge c)
        (Fields.L1ERC721Bridge other) σ;
  σ ← copySemverMap (Fields.L1StandardBridge c)
        (Fields.L1StandardBridge other) σ;
  σ ← copySemverMap (Fields.L2OutputOracle c)
        (Fields.L2OutputOracle other) σ;
  σ ← copySemverMap (Fields.OptimismMintableERC20Factory c)
        (Fields.OptimismMintableERC20Factory other) σ;
  σ ← copySemverMap (Fields.OptimismPortal c)
        (Fields.OptimismPortal other) σ;
  copySemverMap (Fields.SystemConfig c) (Fields.SystemConfig other) σ.

(** ** Notions the statements use *)

(** [k] is the canonical form of a key of [a]: an element of [Versions]. *)
Definition storedVersion (a : AddressSet) (k : string) : Prop :=
  ∃ key, is_Some (a !! key) ∧ canonicalizeSemver key = k.

(** No stored version reaches the target [t]. *)
Definition noneReaches (a : AddressSet) (t : string) : Prop :=
  ∀ k, storedVersion a k → (semver.Compare k t < 0)%Z.

(** The sets of the examples. *)
Definition set123 (A B C : Address) : AddressSet :=
  <["1.0.0" := A]> (<["2.0.0" := B]> (<["3.0.0" := C]> ∅)).

Definition setBuild : AddressSet :=
  <["1.0.0" := 1%N]> (<["1.0.0+b" := 2%N]> ∅).

Definition setShort : AddressSet :=
  <["1" := 1%N]> (<["2.0.0" := 2%N]> ∅).

Definition setBoth : AddressSet :=
  <["1.0.0" := 1%N]> (<["v1.0.0" := 2%N]> ∅).

Definition setZero : AddressSet := <["1.0.0" := zeroAddress]> ∅.

(** The steps of [Resolve] for a list of contracts. *)
Fixpoint steps (rs : list contract) (c : ContractImplementations AddressSet)
    (versions : ContractVersions)
    : ImplementationList → ImplementationList * option error :=
  match rs with
  | [] => λ implementations, (implementations, None)
  | r :: rs => step r c versions (steps rs c versions)
  end.

(** The [ImplementationList] after the assignments of [Resolve] for a list
    of contracts. *)
Definition fill (rs : list contract) (c : ContractImplementations AddressSet)
    (versions : ContractVersions) (implementations : ImplementationList)
    : ImplementationList :=
  foldl (λ acc r, assign r (resolve (field r c) (field r versions)).1 acc)
        implementations rs.

(** Bundles of the examples: every contract has version 2.0.0, but
    [L2OutputOracle] and [OptimismPortal], which have 1.0.0 only. *)
Definition bundleTwoBelow : ContractImplementations AddressSet :=
  assign L2OutputOracle (<["1.0.0" := 4%N]> ∅)
    (assign OptimismPortal (<["1.0.0" := 6%N]> ∅)
       (uniform (<["2.0.0" := 1%N]> ∅))).

Definition versionsTwo : ContractVersions := uniform "2.0.0".

(** The calls of [Merge] for a list of contracts. *)
Fixpoint copies (rs : list contract) (c other : ContractImplementations ref)
    (σ : store) : option store :=
  match rs with
  | [] => Some σ
  | r :: rs => copySemverMap (field r c) (field r other) σ ≫= copies rs c other
  end.

(** Stores of the examples.  In the first, the destination and the source
    have maps of their own: locations 0 to 6 and 7 to 13. *)
Definition dstOwn : ContractImplementations ref :=
  Fields.mk (Some 0) (Some 1) (Some 2) (Some 3) (Some 4) (Some 5) (Some 6).

Definition srcOwn : ContractImplementations ref :=
  Fields.mk (Some 7) (Some 8) (Some 9) (Some 10) (Some 11) (Some 12)
            (Some 13).

Definition storeOwn : store :=
  list_to_map
    (((λ l, (l, <["1.0.0" := 1%N]> (<["2.0.0" := 3%N]> ∅))) <$> seq 0 7)
     ++ ((λ l, (l, <["1.0.0" := 2%N]> ∅)) <$> seq 7 7))%list.

(** In the second, the map at location 0 is both the destination's
    [L1CrossDomainMessenger] and the source's [L1ERC721Bridge]. *)
Definition dstShared : ContractImplementations ref :=
  Fields.mk (Some 0) (Some 1) (Some 2) (Some 3) (Some 4) (Some 5) (Some 6).

Definition srcShared : ContractImplementations ref :=
  Fields.mk (Some 7) (Some 0) (Some 9) (Some 10) (Some 11) (Some 12)
            (Some 13).

Definition storeShared : store :=
  <[7 := <["1.0.0" := 1%N]> ∅]>
    (list_to_map ((λ l, (l, ∅)) <$> seq 0 14)).

Definition storeSharedAfter : store :=
  <[1 := <["1.0.0" := 1%N]> ∅]> (<[0 := <["1.0.0" := 1%N]> ∅]> storeShared).

(** ** [superchain.go]: the other functions on versions and sets *)

(** The body of the loop of [Check] for the field [r], holding [str].  Every
    field of [ContractVersions] is a string, so the type assertion of the
    loop holds and its error is never built. *)
Definition checkField (r : contract) (str : string) : option error :=
  if String.eqb str "" then
    Some (errorString ("empty version for field " ++ name r))
  else
    let str := canonicalizeSemver str in
    if negb (semver.IsValid str) then
      Some (errorString
              ("invalid semver " ++ str ++ " for field " ++ name r))
    else None.

(** [for i := 0; i < val.NumField(); i++]: the fields in their order. *)
Fixpoint checkFields (rs : list contract) (c : ContractVersions)
    : option error :=
  match rs with
  | [] => None
  | r :: rs =>
      match checkField r (field r c) with
      | Some err => Some err
      | None => checkFields rs c
      end
  end.

Definition Check (c : ContractVersions) : option error :=
  checkFields contracts c.

(** [make(AddressSet)]: a new, empty map, at a location not in use. *)
Definition make (σ : store) : nat * store :=
  let l := fresh (dom σ) in (l, <[l := ∅]> σ).

(** [if impls.<field> == nil { impls.<field> = make(AddressSet) }] *)
Definition setIfNil (r : contract) (s : ContractImplementations ref * store)
    : ContractImplementations ref * store :=
  match field r s.1 with
  | None => let m := make s.2 in (assign r (Some m.1) s.1, m.2)
  | Some _ => s
  end.

Definition setAddressSetsIfNil (impls : ContractImplementations ref)
    (σ : store) : ContractImplementations ref * store :=
  setIfNil SystemConfig
  (setIfNil OptimismPortal
  (setIfNil OptimismMintableERC20Factory
  (setIfNil L2OutputOracle
  (setIfNil L1StandardBridge
  (setIfNil L1ERC721Bridge
  (setIfNil L1CrossDomainMessenger (impls, σ))))))).

(** [maps.Clone]: nil for nil; else a new map into which every entry of
    [m] is put. *)
Definition Clone (m : ref) (σ : store) : ref * store :=
  match m with
  | None => (None, σ)
  | Some _ =>
      let l := fresh (dom σ) in
      (Some l, <[l := list_to_map (map_to_list (entries σ m))]> σ)
  end.

(** [Copy]: the fields of the struct literal are evaluated in their
    order. *)
Definition Copy (c : ContractImplementations ref) (σ : store)
    : ContractImplementations ref * store :=
  let r1 := Clone (Fields.L1CrossDomainMessenger c) σ in
  let r2 := Clone (Fields.L1ERC721Bridge c) r1.2 in
  let r3 := Clone (Fields.L1StandardBridge c) r2.2 in
  let r4 := Clone (Fields.L2OutputOracle c) r3.2 in
  let r5 := Clone (Fields.OptimismMintableERC20Factory c) r4.2 in
  let r6 := Clone (Fields.OptimismPortal c) r5.2 in
  let r7 := Clone (Fields.SystemConfig c) r6.2 in
  (Fields.mk r1.1 r2.1 r3.1 r4.1 r5.1 r6.1 r7.1, r7.2).

(** Every map value of [c] is nil or a map of the store. *)
Definition allocated (σ : store) (c : ContractImplementations ref) : Prop :=
  ∀ r l, field r c = Some l → is_Some (σ !! l).

(** The maps of [c] that are not nil are different maps. *)
Definition ownMaps (c : ContractImplementations ref) : Prop :=
  ∀ r r' l, r ≠ r' → field r c = Some l → field r' c ≠ Some l.

(** No map of [c] is a map of [other]. *)
Definition apart (c other : ContractImplementations ref) : Prop :=
  ∀ r r' l, field r c = Some l → field r' other ≠ Some l.

(** The field [r] of [c] passes [Check]. *)
Definition fieldOk (c : ContractVersions) (r : contract) : Prop :=
  field r c ≠ "" ∧ semver.IsValid (canonicalizeSemver (field r c)) = true.

(** [setIfNil] and [Clone] for a list of contracts. *)
Definition setIfNils (rs : list contract)
    (s : ContractImplementations ref * store)
    : ContractImplementations ref * store :=
  foldl (λ s r, setIfNil r s) s rs.

Definition clones (rs : list contract) (c : ContractImplementations ref)
    (s : ContractImplementations ref * store)
    : ContractImplementations ref * store :=
  foldl (λ s r, let m := Clone (field r c) s.2 in (assign r m.1 s.1, m.2))
        s rs.

(** [s'] comes from [s] by allocations: the maps of the store are as they
    were, the new ones are empty, and a field changes only from nil to a
    new map. *)
Definition Grows (s s' : ContractImplementations ref * store) : Prop :=
  (∀ l m, s.2 !! l = Some m → s'.2 !! l = Some m)
  ∧ (∀ l, s.2 !! l = None → s'.2 !! l = None ∨ s'.2 !! l = Some ∅)
  ∧ (∀ r l, field r s.1 = Some l → field r s'.1 = Some l)
  ∧ (∀ r l, field r s.1 = None → field r s'.1 = Some l →
            s.2 !! l = None ∧ is_Some (s'.2 !! l))
  ∧ (allocated s.2 s.1 → allocated s'.2 s'.1)
  ∧ (allocated s.2 s.1 →
     ∀ r r' l, r ≠ r' → field r s'.1 = Some l → field r' s'.1 = Some l →
               field r s.1 = Some l ∧ field r' s.1 = Some l).

(** Structs and stores of the examples. *)
Definition implsPartial : ContractImplementations ref :=
  Fields.mk (Some 0) None (Some 2) None None (Some 5) None.

Definition storePartial : store :=
  <[0 := <["1.0.0" := 1%N]> ∅]> (<[2 := ∅]> (<[5 := <["2.0.0" := 2%N]> ∅]> ∅)).


Definition storeDecoded : store :=
  <[9 := <["3.0.0" := 7%N]> ∅]> storePartial.

Definition implsNetwork : ContractImplementations ref :=
  assign L1CrossDomainMessenger (Some 9) (uniform None).

(** The destination has version 1.0.0 under the key without ["v"], the
    source under the key with it. *)
Definition storeSpell : store :=
  list_to_map
    (((λ l, (l, <["1.0.0" := 1%N]> ∅)) <$> seq 0 7)
     ++ ((λ l, (l, <["v1.0.0" := 2%N]> ∅)) <$> seq 7 7))%list.

Definition storeSpellAfter : store :=
  list_to_map
    (((λ l, (l, <["1.0.0" := 1%N]> (<["v1.0.0" := 2%N]> ∅))) <$> seq 0 7)
     ++ ((λ l, (l, <["v1.0.0" := 2%N]> ∅)) <$> seq 7 7))%list.

Definition bundleAll : ContractImplementations AddressSet :=
  uniform (<["2.0.0" := 1%N]> (<["3.0.0" := 2%N]> ∅)).

Definition storeOwnAfter : store :=
  list_to_map
    (((λ l, (l, <["1.0.0" := 2%N]> (<["2.0.0" := 3%N]> ∅))) <$> seq 0 7)
     ++ ((λ l, (l, <["1.0.0" := 2%N]> ∅)) <$> seq 7 7))%list.

(** * Proofs *)

(** ** Three-way comparisons: the combinators keep the laws *)

Section three_way.

Context {A B : Type}.

Lemma cmp3_refl (D : A → Prop) f x : Cmp3 D f → D x → f x x = 0%Z.
Proof. intros Hf Hx. pose proof (cmp3_antisym D f Hf x x Hx Hx). lia. Qed.

(** Reading the values through a key keeps the laws. *)
Lemma cmp3_key (D : B → Prop) (f : B → B → Z) (k : A → B) :
  Cmp3 D f → Cmp3 (λ x, D (k x)) (λ x y, f (k x) (k y)).
Proof.
  intros [Hr Ha Ht]. split; intros.
  - apply Hr.
  - by apply Ha.
  - by apply Ht with (k y).
Qed.

Lemma cmp3_weaken (D D' : A → Prop) f :
  (∀ x, D' x → D x) → Cmp3 D f → Cmp3 D' f.
Proof.
  intros HD [Hr Ha Ht]. split; intros.
  - apply Hr.
  - apply Ha; auto.
  - apply Ht with y; auto.
Qed.

Lemma cmp3_ext (D : A → Prop) f g :
  (∀ x y, D x → D y → g x y = f x y) →
  (∀ x y, g x y = (-1)%Z ∨ g x y = 0%Z ∨ g x y = 1%Z) →
  Cmp3 D f → Cmp3 D g.
Proof.
  intros Heq Hrg [Hr Ha Ht]. split.
  - apply Hrg.
  - intros x y Hx Hy. rewrite !Heq by done. by apply Ha.
  - intros x y z Hx Hy Hz. rewrite (Heq x y), (Heq y z), (Heq x z) by done.
    by apply Ht.
Qed.

(** A function that agrees, on [DA], with a total preorder of keys. *)
Lemma cmp3_of_key (DB : B → Prop) (f : B → B → Z) (k : A → B)
    (DA : A → Prop) (g : A → A → Z) :
  Cmp3 DB f →
  (∀ x, DA x → DB (k x)) →
  (∀ x y, DA x → DA y → g x y = f (k x) (k y)) →
  (∀ x y, g x y = (-1)%Z ∨ g x y = 0%Z ∨ g x y = 1%Z) →
  Cmp3 DA g.
Proof.
  intros Hf HD Heq Hr.
  apply cmp3_ext with (f := λ x y, f (k x) (k y)); [done..|].
  apply cmp3_weaken with (D := λ x, DB (k x)); [done|].
  by apply cmp3_key.
Qed.

Lemma cmp3_lex (DA : A → Prop) (DB : B → Prop)
    (f : A → A → Z) (g : B → B → Z) :
  Cmp3 DA f → Cmp3 DB g → Cmp3 (λ p, DA p.1 ∧ DB p.2) (lex f g).
Proof.
  intros [Hrf Haf Htf] [Hrg Hag Htg]. split.
  - intros [a b] [a' b']. unfold lex; simpl.
    destruct (Z.eqb_spec (f a a') 0); simpl; auto.
  - intros [a b] [a' b'] [Ha Hb] [Ha' Hb']. unfold lex; simpl in *.
    pose proof (Haf a a' Ha Ha'). pose proof (Hag b b' Hb Hb').
    destruct (Z.eqb_spec (f a a') 0), (Z.eqb_spec (f a' a) 0); simpl; lia.
  - intros [a1 b1] [a2 b2] [a3 b3] [Ha1 Hb1] [Ha2 Hb2] [Ha3 Hb3].
    unfold lex; simpl in *.
    pose proof (Hrf a1 a2). pose proof (Hrf a2 a3). pose proof (Hrf a1 a3).
    pose proof (Haf a1 a2 Ha1 Ha2). pose proof (Haf a2 a3 Ha2 Ha3).
    pose proof (Haf a1 a3 Ha1 Ha3).
    pose proof (Htf a1 a2 a3 Ha1 Ha2 Ha3).
    pose proof (Htf a2 a1 a3 Ha2 Ha1 Ha3).
    pose proof (Htf a3 a1 a2 Ha3 Ha1 Ha2).
    pose proof (Htf a1 a3 a2 Ha1 Ha3 Ha2).
    pose proof (Htf a2 a3 a1 Ha2 Ha3 Ha1).
    pose proof (Htf a3 a2 a1 Ha3 Ha2 Ha1).
    pose proof (Htg b1 b2 b3 Hb1 Hb2 Hb3).
    destruct (Z.eqb_spec (f a1 a2) 0), (Z.eqb_spec (f a2 a3) 0),
      (Z.eqb_spec (f a1 a3) 0); simpl; lia.
Qed.

Lemma cmp3_lexList (f : A → A → Z) :
  Cmp3 (λ _, True) f → Cmp3 (λ _, True) (lexList f).
Proof.
  intros [Hrf Haf Htf]. split.
  - induction x as [|a x IH]; intros [|b y]; simpl; auto.
    destruct (Z.eqb_spec (f a b) 0); simpl; auto.
  - induction x as [|a x IH]; intros [|b y] _ _; simpl; try done.
    pose proof (Haf a b I I). specialize (IH y I I).
    destruct (Z.eqb_spec (f a b) 0), (Z.eqb_spec (f b a) 0); simpl; lia.
  - induction x as [|a1 x IH]; intros [|a2 y] [|a3 z] _ _ _; simpl;
      try done; try lia.
    pose proof (Hrf a1 a2). pose proof (Hrf a2 a3). pose proof (Hrf a1 a3).
    pose proof (Haf a1 a2 I I). pose proof (Haf a2 a3 I I).
    pose proof (Haf a1 a3 I I).
    pose proof (Htf a1 a2 a3 I I I).
    pose proof (Htf a2 a1 a3 I I I).
    pose proof (Htf a3 a1 a2 I I I).
    pose proof (Htf a1 a3 a2 I I I).
    pose proof (Htf a2 a3 a1 I I I).
    pose proof (Htf a3 a2 a1 I I I).
    specialize (IH y z I I I).
    destruct (Z.eqb_spec (f a1 a2) 0), (Z.eqb_spec (f a2 a3) 0),
      (Z.eqb_spec (f a1 a3) 0); simpl; lia.
Qed.

Lemma cmp3_lexOption (D : A → Prop) (f : A → A → Z) :
  Cmp3 D f →
  Cmp3 (λ o, match o with Some a => D a | None => True end) (lexOption f).
Proof.
  intros [Hr Ha Ht]. split.
  - intros [a|] [b|]; simpl; auto.
  - intros [a|] [b|]; simpl; auto.
  - intros [a|] [b|] [c|]; simpl; try done; try lia. by apply Ht.
Qed.

End three_way.

(** ** [semver.Compare] is a total preorder *)

Section semver_order.

Import semver.

Lemma cmp3_natCmp : Cmp3 (λ _, True) natCmp.
Proof.
  split; unfold natCmp.
  - intros x y. destruct (Nat.eqb_spec x y), (Nat.ltb_spec x y); auto.
  - intros x y _ _.
    destruct (Nat.eqb_spec x y), (Nat.eqb_spec y x), (Nat.ltb_spec x y),
      (Nat.ltb_spec y x); lia.
  - intros x y z _ _ _.
    destruct (Nat.eqb_spec x y), (Nat.eqb_spec y z), (Nat.eqb_spec x z),
      (Nat.ltb_spec x y), (Nat.ltb_spec y z), (Nat.ltb_spec x z); lia.
Qed.

Lemma string_compare_refl x : String.compare x x = Eq.
Proof.
  pose proof (String.compare_antisym x x) as H.
  destruct (String.compare x x); simpl in H; congruence.
Qed.

Lemma strCmp_compare x y :
  strCmp x y =
  match String.compare x y with Eq => 0%Z | Lt => (-1)%Z | Gt => 1%Z end.
Proof.
  unfold strCmp, String.ltb. destruct (String.eqb_spec x y) as [->|Hne].
  - by rewrite string_compare_refl.
  - destruct (String.compare x y) eqn:E; try done.
    by apply String.compare_eq_iff in E.
Qed.

Lemma strCmp_le x y : (strCmp x y <= 0)%Z ↔ String.le x y.
Proof.
  rewrite strCmp_compare. unfold String.le, String.leb.
  destruct (String.compare x y); simpl; intuition lia.
Qed.

Lemma cmp3_strCmp : Cmp3 (λ _, True) strCmp.
Proof.
  split.
  - intros x y. rewrite strCmp_compare. destruct (String.compare x y); auto.
  - intros x y _ _. rewrite !strCmp_compare, (String.compare_antisym x y).
    by destruct (String.compare y x).
  - intros x y z _ _ _. rewrite !strCmp_le. apply transitivity.
Qed.

Lemma strCmp_eq x y : strCmp x y = 0%Z → x = y.
Proof.
  unfold strCmp. destruct (String.eqb_spec x y); [done|].
  destruct (String.ltb x y); lia.
Qed.

(** [compareInt] orders digit strings by length, then by bytes. *)
Lemma compareInt_key x y :
  compareInt x y =
  lex natCmp strCmp (String.length x, x) (String.length y, y).
Proof.
  unfold compareInt, lex, natCmp, strCmp; simpl.
  destruct (String.eqb_spec x y) as [->|Hne].
  - by rewrite Nat.eqb_refl.
  - destruct (Nat.eqb_spec (String.length x) (String.length y)),
      (Nat.ltb_spec (String.length x) (String.length y)),
      (Nat.ltb_spec (String.length y) (String.length x)); simpl; try lia;
      by destruct (String.ltb x y).
Qed.

Lemma cmp3_compareInt : Cmp3 (λ _, True) compareInt.
Proof.
  pose proof (cmp3_lex _ _ _ _ cmp3_natCmp cmp3_strCmp) as Hl.
  apply (cmp3_of_key _ _ (λ x, (String.length x, x)) _ _ Hl); [done| |].
  - intros. apply compareInt_key.
  - intros x y. rewrite compareInt_key. apply (cmp3_range _ _ Hl).
Qed.

Lemma compareInt_eq x y : compareInt x y = 0%Z → x = y.
Proof.
  unfold compareInt. destruct (String.eqb_spec x y); [done|].
  repeat case_match; lia.
Qed.

Lemma identCmp_key dx dy :
  identCmp dx dy = lex natCmp (lex natCmp strCmp) (identKey dx) (identKey dy).
Proof.
  unfold identCmp, compareIdent, identKey, lex, natCmp, strCmp; simpl.
  destruct (String.eqb_spec dx dy) as [->|Hne].
  - by rewrite !Nat.eqb_refl.
  - destruct (isNum dx), (isNum dy); simpl; try done.
    destruct (Nat.eqb_spec (String.length dx) (String.length dy)),
      (Nat.ltb_spec (String.length dx) (String.length dy)),
      (Nat.ltb_spec (String.length dy) (String.length dx)); simpl; try lia;
      by destruct (String.ltb dx dy).
Qed.

Lemma cmp3_identCmp : Cmp3 (λ _, True) identCmp.
Proof.
  pose proof (cmp3_lex _ _ _ _ cmp3_natCmp
                (cmp3_lex _ _ _ _ cmp3_natCmp cmp3_strCmp)) as Hl.
  apply (cmp3_of_key _ _ identKey _ _ Hl); [done| |].
  - intros. apply identCmp_key.
  - intros x y. rewrite identCmp_key. apply (cmp3_range _ _ Hl).
Qed.

Lemma compareIdent_nonzero dx dy : compareIdent dx dy ≠ 0%Z.
Proof. unfold compareIdent. repeat case_match; lia. Qed.

Lemma identCmp_eq dx dy : identCmp dx dy = 0%Z → dx = dy.
Proof.
  unfold identCmp. destruct (String.eqb_spec dx dy); [done|].
  intros H. by apply compareIdent_nonzero in H.
Qed.

Lemma prereleaseScan_lexList xs ys :
  xs ≠ ys → prereleaseScan xs ys = lexList identCmp xs ys.
Proof.
  revert ys. induction xs as [|dx xs IH]; intros [|dy ys] Hne; simpl; try done.
  unfold identCmp. destruct (String.eqb_spec dx dy) as [->|Hd]; simpl.
  - apply IH. congruence.
  - destruct (Z.eqb_spec (compareIdent dx dy) 0) as [E|]; [|done].
    by apply compareIdent_nonzero in E.
Qed.

Lemma concat_splitDots r : String.concat "." (splitDots r) = r.
Proof.
  induction r as [|c r IH]; [done|]. simpl.
  destruct (Ascii.eqb_spec c ".") as [->|Hc].
  - destruct (splitDots r) as [|d l] eqn:E; simpl in *; by subst.
  - destruct (splitDots r) as [|d l] eqn:E; simpl in *; [by subst|].
    destruct l; simpl in *; by subst.
Qed.

Lemma idents_inj x y :
  startsWith "-" x = true → startsWith "-" y = true →
  idents x = idents y → x = y.
Proof.
  destruct x as [|c x], y as [|c' y]; simpl; try done.
  intros Hc Hc' E. apply Ascii.eqb_eq in Hc, Hc'. subst.
  f_equal. by rewrite <- (concat_splitDots x), <- (concat_splitDots y), E.
Qed.

Lemma comparePrerelease_key x y :
  prereleaseShape x → prereleaseShape y →
  comparePrerelease x y =
  lex natCmp (lexList identCmp) (prereleaseKey x) (prereleaseKey y).
Proof.
  intros Hx Hy. unfold comparePrerelease, prereleaseKey, lex; simpl.
  destruct (String.eqb_spec x y) as [->|Hne].
  - unfold natCmp. rewrite Nat.eqb_refl. simpl.
    symmetry. by apply (cmp3_refl _ _ _ (cmp3_lexList _ cmp3_identCmp)).
  - destruct (String.eqb_spec x "") as [->|Hx0],
      (String.eqb_spec y "") as [->|Hy0]; simpl; try done.
    apply prereleaseScan_lexList. intros E. apply Hne.
    destruct Hx as [|Hx], Hy as [|Hy]; try done. by apply idents_inj.
Qed.

Lemma comparePrerelease_range x y :
  comparePrerelease x y = (-1)%Z ∨ comparePrerelease x y = 0%Z
  ∨ comparePrerelease x y = 1%Z.
Proof.
  unfold comparePrerelease. repeat case_match; auto.
  generalize (idents y). induction (idents x) as [|dx xs IH];
    intros [|dy ys]; simpl; auto.
  case_match; [|apply IH].
  unfold compareIdent. repeat case_match; auto.
Qed.

Lemma cmp3_comparePrerelease : Cmp3 prereleaseShape comparePrerelease.
Proof.
  pose proof (cmp3_lex _ _ _ _ cmp3_natCmp (cmp3_lexList _ cmp3_identCmp))
    as Hl.
  apply (cmp3_of_key _ _ prereleaseKey _ _ Hl); [done| |].
  - apply comparePrerelease_key.
  - apply comparePrerelease_range.
Qed.

Lemma startsWith_app c t u :
  startsWith c t = true → startsWith c (t ++ u) = true.
Proof. by destruct t. Qed.

Lemma prereleaseLoop_shape v cur t t' rest :
  prereleaseLoop v cur t = Some (t', rest) →
  startsWith "-" t = true → startsWith "-" t' = true.
Proof.
  revert cur t. induction v as [|c r IH]; intros cur t; simpl.
  - case_match; [done|]. by intros [= <- <-].
  - repeat case_match; try done.
    + by intros [= <- <-].
    + intros Hl Ht. eapply IH; [done|]. by apply startsWith_app.
    + intros Hl Ht. eapply IH; [done|]. by apply startsWith_app.
Qed.

Lemma parsePrerelease_shape v t rest :
  parsePrerelease v = Some (t, rest) → startsWith "-" t = true.
Proof.
  destruct v as [|c r]; simpl; [done|]. case_match; [|done].
  intros Hl. by eapply prereleaseLoop_shape.
Qed.

Lemma parse_shape v p : parse v = Some p → prereleaseShape (prerelease p).
Proof.
  unfold parse. intros H.
  repeat (first
    [ done
    | match type of H with
      | Some _ = Some _ => injection H as <-; by left
      | (if ?b then _ else _) = _ => destruct b eqn:?
      | mbind _ ?m = _ => destruct m as [[? ?]|] eqn:?; simpl in H
      | match ?x with _ => _ end = _ => destruct x eqn:?
      end ]).
  simplify_eq; simpl.
  match goal with
  | E : (if startsWith "-" ?w then _ else _) = Some _ |- _ =>
      destruct (startsWith "-" w)
  end.
  - right. by eapply parsePrerelease_shape.
  - left. congruence.
Qed.

Lemma cmp3_compareParsed :
  Cmp3 (λ p, prereleaseShape (prerelease p)) compareParsed.
Proof.
  pose proof (cmp3_lex _ _ _ _ cmp3_compareInt
               (cmp3_lex _ _ _ _ cmp3_compareInt
                 (cmp3_lex _ _ _ _ cmp3_compareInt cmp3_comparePrerelease)))
    as Hl.
  apply (cmp3_of_key _ _ parsedKey _ _ Hl); [done|done|].
  intros x y. unfold compareParsed.
  pose proof (cmp3_range _ _ cmp3_compareInt) as Hr.
  repeat case_match; try apply Hr. apply comparePrerelease_range.
Qed.

Theorem cmp3_Compare : Cmp3 (λ _, True) Compare.
Proof.
  pose proof (cmp3_lexOption _ _ cmp3_compareParsed) as Hl.
  apply (cmp3_of_key _ _ parse _ _ Hl).
  - intros v _. destruct (parse v) eqn:E; [|done]. by eapply parse_shape.
  - done.
  - intros x y. apply (cmp3_range _ _ Hl).
Qed.

Lemma Compare_range v w :
  Compare v w = (-1)%Z ∨ Compare v w = 0%Z ∨ Compare v w = 1%Z.
Proof. apply (cmp3_range _ _ cmp3_Compare). Qed.

Lemma Compare_refl v : Compare v v = 0%Z.
Proof. by apply (cmp3_refl _ _ _ cmp3_Compare). Qed.

Lemma Compare_antisym v w : Compare w v = (- Compare v w)%Z.
Proof. by apply (cmp3_antisym _ _ cmp3_Compare). Qed.

Lemma Compare_trans u v w :
  (Compare u v <= 0)%Z → (Compare v w <= 0)%Z → (Compare u w <= 0)%Z.
Proof. by apply (cmp3_trans _ _ cmp3_Compare). Qed.

Lemma Compare_tied u v t :
  Compare u t = 0%Z → Compare v t = 0%Z → Compare u v = 0%Z.
Proof.
  intros Hu Hv.
  pose proof (Compare_antisym u t). pose proof (Compare_antisym v t).
  pose proof (Compare_antisym u v).
  pose proof (Compare_trans u t v). pose proof (Compare_trans v t u). lia.
Qed.

(** The precedence chain of the Semantic Versioning document, and the
    two departures of the package: short forms, and the order of invalid
    strings. *)
Example Compare_chain :
  Forall (λ vw : string * string, Compare vw.1 vw.2 = (-1)%Z)
    [("v1.0.0-alpha", "v1.0.0-alpha.1");
     ("v1.0.0-alpha.1", "v1.0.0-alpha.beta");
     ("v1.0.0-alpha.beta", "v1.0.0-beta");
     ("v1.0.0-beta", "v1.0.0-beta.2");
     ("v1.0.0-beta.2", "v1.0.0-beta.11");
     ("v1.0.0-beta.11", "v1.0.0-rc.1");
     ("v1.0.0-rc.1", "v1.0.0");
     ("v1.0.0", "v2.0.0");
     ("v2.0.0", "v2.1.0");
     ("v2.1.0", "v2.1.1");
     ("v9.0.0", "v10.0.0");
     ("1.0.0", "v0.0.1")].
Proof. repeat constructor. Qed.

Example Compare_ties :
  Forall (λ vw : string * string, Compare vw.1 vw.2 = 0%Z)
    [("v1.0.0", "v1.0.0+b"); ("v1", "v1.0.0"); ("v1.2", "v1.2.0");
     ("1.0.0", "2.0.0"); ("v01.0.0", "vfoo")].
Proof. repeat constructor. Qed.

Example IsValid_examples :
  IsValid "v1.0.0-0a.b+x.y" = true ∧ IsValid "v1.0.0-01" = false
  ∧ IsValid "v01.0.0" = false ∧ IsValid "1.0.0" = false
  ∧ IsValid "v1.0.0-" = false ∧ IsValid "v1.0" = true.
Proof. repeat split. Qed.

End semver_order.

(** ** [semver.Sort] returns the one sorted arrangement *)

Section semver_sort.

Import semver.

Lemma cmp3_versionCmp : Cmp3 (λ _, True) versionCmp.
Proof.
  pose proof (cmp3_lex _ _ _ _ cmp3_Compare cmp3_strCmp) as Hl.
  apply (cmp3_of_key _ _ (λ v : string, (v, v)) _ _ Hl); [done|done|].
  intros x y. apply (cmp3_range _ _ Hl).
Qed.

Lemma versionCmp_eq v w : versionCmp v w = 0%Z → v = w.
Proof.
  unfold versionCmp, lex; simpl.
  destruct (Z.eqb_spec (Compare v w) 0); simpl; [apply strCmp_eq|lia].
Qed.

Lemma Less_versionCmp v w : Less v w = (versionCmp v w <? 0)%Z.
Proof.
  unfold Less, versionCmp, lex, strCmp; simpl.
  destruct (Z.eqb_spec (Compare v w) 0) as [E|]; simpl; [|done].
  destruct (String.eqb_spec v w) as [->|Hne].
  - unfold String.ltb. by rewrite string_compare_refl.
  - by destruct (String.ltb v w).
Qed.

Lemma ByVersion_versionCmp v w : ByVersion v w ↔ (versionCmp v w <= 0)%Z.
Proof.
  unfold ByVersion. rewrite Less_versionCmp, Z.ltb_ge.
  pose proof (cmp3_antisym _ _ cmp3_versionCmp v w I I). lia.
Qed.

#[local] Instance ByVersion_total : Total ByVersion.
Proof.
  intros v w. rewrite !ByVersion_versionCmp.
  pose proof (cmp3_antisym _ _ cmp3_versionCmp v w I I). lia.
Qed.

#[local] Instance ByVersion_trans : Transitive ByVersion.
Proof.
  intros u v w. rewrite !ByVersion_versionCmp.
  by apply (cmp3_trans _ _ cmp3_versionCmp).
Qed.

#[local] Instance ByVersion_antisymm : AntiSymm (=) ByVersion.
Proof.
  intros v w. rewrite !ByVersion_versionCmp. intros H1 H2.
  apply versionCmp_eq.
  pose proof (cmp3_antisym _ _ cmp3_versionCmp v w I I). lia.
Qed.

Lemma ByVersion_refl v : ByVersion v v.
Proof.
  apply ByVersion_versionCmp.
  by rewrite (cmp3_refl _ _ _ cmp3_versionCmp).
Qed.

Lemma ByVersion_Compare v w : ByVersion v w → (Compare v w <= 0)%Z.
Proof.
  rewrite ByVersion_versionCmp. unfold versionCmp, lex; simpl.
  destruct (Z.eqb_spec (Compare v w) 0); simpl; lia.
Qed.

Lemma ByVersion_tied v w :
  ByVersion v w → Compare v w = 0%Z → String.le v w.
Proof.
  rewrite ByVersion_versionCmp. unfold versionCmp, lex; simpl.
  intros H E. rewrite E in H. simpl in H. by apply strCmp_le.
Qed.

Lemma Sort_sorted l : StronglySorted ByVersion (Sort l).
Proof. apply StronglySorted_merge_sort; apply _. Qed.

Lemma Sort_Permutation l : Sort l ≡ₚ l.
Proof. apply merge_sort_Permutation. Qed.

(** Whatever sorted arrangement of [l] a sorting procedure produces, it is
    [Sort l]; in particular [Sort] does not depend on the order of its
    input. *)
Lemma Sort_unique l l' : l' ≡ₚ l → Sorted ByVersion l' → l' = Sort l.
Proof.
  intros Hp Hs. apply (Sorted_unique ByVersion); [done| |].
  - apply StronglySorted_Sorted, Sort_sorted.
  - by rewrite Sort_Permutation.
Qed.

Lemma Sort_perm l l' : l ≡ₚ l' → Sort l = Sort l'.
Proof.
  intros Hp. apply Sort_unique.
  - by rewrite Sort_Permutation.
  - apply StronglySorted_Sorted, Sort_sorted.
Qed.

End semver_sort.


(** ** Prefixes and canonical versions *)

Section canonical.

Lemma HasPrefix_v c s : strings.HasPrefix (String c s) "v" = Ascii.eqb "v" c.
Proof.
  unfold strings.HasPrefix. cbn [strings.cut].
  by destruct (Ascii.eqb "v" c).
Qed.

Lemma canonicalizeSemver_unprefixed s :
  strings.HasPrefix s "v" = false → canonicalizeSemver s = "v" ++ s.
Proof. unfold canonicalizeSemver. by intros ->. Qed.

Lemma canonicalizeSemver_prefixed s :
  strings.HasPrefix s "v" = true → canonicalizeSemver s = s.
Proof. unfold canonicalizeSemver. by intros ->. Qed.

Lemma HasPrefix_canonicalizeSemver s :
  strings.HasPrefix (canonicalizeSemver s) "v" = true.
Proof.
  unfold canonicalizeSemver.
  by destruct (strings.HasPrefix s "v") eqn:E.
Qed.

Lemma canonicalizeSemver_idem s :
  canonicalizeSemver (canonicalizeSemver s) = canonicalizeSemver s.
Proof. apply canonicalizeSemver_prefixed, HasPrefix_canonicalizeSemver. Qed.

Lemma TrimPrefix_v s : strings.TrimPrefix ("v" ++ s) "v" = s.
Proof. done. Qed.

Lemma TrimPrefix_unprefixed s :
  strings.HasPrefix s "v" = false →
  strings.TrimPrefix (canonicalizeSemver s) "v" = s.
Proof. intros H. by rewrite canonicalizeSemver_unprefixed. Qed.

(** [Get] canonicalizes its key, then tries the stripped spelling and
    falls back to the canonical one. *)
Lemma Get_canonical (a : AddressSet) key :
  Get a key =
  match a !! strings.TrimPrefix (canonicalizeSemver key) "v" with
  | Some addr => addr
  | None => default zeroAddress (a !! canonicalizeSemver key)
  end.
Proof. done. Qed.

Lemma Get_canonicalizeSemver (a : AddressSet) key :
  Get a (canonicalizeSemver key) = Get a key.
Proof. by rewrite !Get_canonical, canonicalizeSemver_idem. Qed.

End canonical.

(** ** [Versions] *)

Section versions.

Lemma elem_of_Versions (a : AddressSet) k :
  k ∈ Versions a ↔ storedVersion a k.
Proof.
  unfold Versions, storedVersion, Keys.
  rewrite Sort_Permutation, list_elem_of_fmap.
  split.
  - intros (key & -> & Hk). exists key. split; [|done].
    by apply elem_of_dom, elem_of_elements.
  - intros (key & Hk & <-). exists key. split; [done|].
    by apply elem_of_elements, elem_of_dom.
Qed.

Lemma Versions_sorted (a : AddressSet) :
  StronglySorted semver.ByVersion (Versions a).
Proof. apply Sort_sorted. Qed.

Lemma Versions_length (a : AddressSet) : length (Versions a) = size a.
Proof.
  unfold Versions, Keys.
  by rewrite Sort_Permutation, length_fmap, <- size_dom.
Qed.

Lemma Versions_empty (a : AddressSet) :
  Nat.eqb (length (Versions a)) 0 = true ↔ a = ∅.
Proof.
  rewrite Versions_length, Nat.eqb_eq. apply map_size_empty_iff.
Qed.

(** The order in which the map hands out its keys does not show. *)
Lemma Versions_any_order (a : AddressSet) keys :
  keys ≡ₚ Keys a → semver.Sort (canonicalizeSemver <$> keys) = Versions a.
Proof. intros Hp. apply Sort_perm. by rewrite Hp. Qed.

Lemma storedVersion_prefixed (a : AddressSet) k :
  storedVersion a k → strings.HasPrefix k "v" = true.
Proof. intros (key & _ & <-). apply HasPrefix_canonicalizeSemver. Qed.

End versions.

(** ** The loop of [resolve] on a sorted list *)

Section scan.

Import semver.

Variables (a : AddressSet) (t : string).

(** In a sorted list, whatever follows a version above the target is above
    the target. *)
Lemma above_stays k k' :
  ByVersion k k' → (0 < Compare k t)%Z → (0 < Compare k' t)%Z.
Proof.
  intros Hle%ByVersion_Compare Hk.
  destruct (Z.lt_ge_cases 0 (Compare k' t)) as [|Hk']; [done|].
  pose proof (Compare_trans k k' t Hle Hk'). lia.
Qed.

(** The three outcomes of the loop: the first version that ties with the
    target; failing any tie, the last version, when it is above the target;
    the candidate it started with, when every version is below. *)
Lemma scan_sorted keys out :
  StronglySorted ByVersion keys →
  (∃ k, k ∈ keys ∧ Compare k t = 0%Z
        ∧ (∀ k', k' ∈ keys → Compare k' t = 0%Z → ByVersion k k')
        ∧ scan a t keys out = VersionedContract.mk k (Get a k))
  ∨ ((∀ k, k ∈ keys → Compare k t ≠ 0%Z)
     ∧ ∃ k, k ∈ keys ∧ (0 < Compare k t)%Z
            ∧ (∀ k', k' ∈ keys → ByVersion k' k)
            ∧ scan a t keys out = VersionedContract.mk k (Get a k))
  ∨ ((∀ k, k ∈ keys → (Compare k t < 0)%Z) ∧ scan a t keys out = out).
Proof.
  intros Hs. revert out.
  induction Hs as [|k keys Hs IH Hk]; intros out.
  { right; right. split; [|done]. by intros k ?%elem_of_nil. }
  rewrite Forall_forall in Hk. simpl.
  destruct (Z.leb_spec 0 (Compare k t)) as [Hge|Hlt].
  - destruct (Z.eqb_spec (Compare k t) 0) as [Heq|Hne].
    + left. exists k. repeat split; [by left|done|].
      intros k' [->|Hin]%elem_of_cons _; [apply ByVersion_refl|by apply Hk].
    + assert (0 < Compare k t)%Z as Hgt by lia.
      right; left.
      destruct (IH (VersionedContract.mk k (Get a k)))
        as [(k0 & Hin & H0 & _)|[(Hno & k1 & Hin & H1 & Hmax & Heq)
                                |[Hall Heq]]].
      * pose proof (above_stays k k0 (Hk _ Hin) Hgt). lia.
      * split.
        { intros k' [->|Hin']%elem_of_cons; [done|by apply Hno]. }
        exists k1. repeat split; [by right|done| |done].
        intros k' [->|Hin']%elem_of_cons; [by apply Hk|by apply Hmax].
      * split.
        { intros k' [->|Hin']%elem_of_cons; [done|].
          specialize (Hall _ Hin'). lia. }
        exists k. repeat split; [by left|done| |done].
        intros k' [->|Hin']%elem_of_cons; [apply ByVersion_refl|].
        pose proof (above_stays k k' (Hk _ Hin') Hgt).
        specialize (Hall _ Hin'). lia.
  - destruct (IH out)
      as [(k0 & Hin & H0 & Hfirst & Heq)|[(Hno & k1 & Hin & H1 & Hmax & Heq)
                                        |[Hall Heq]]].
    + left. exists k0. repeat split; [by right|done| |done].
      intros k' [->|Hin']%elem_of_cons E; [lia|by apply Hfirst].
    + right; left. split.
      { intros k' [->|Hin']%elem_of_cons; [lia|by apply Hno]. }
      exists k1. repeat split; [by right|done| |done].
      intros k' [->|Hin']%elem_of_cons; [by apply Hk|by apply Hmax].
    + right; right. split; [|done].
      intros k' [->|Hin']%elem_of_cons; [done|by apply Hall].
Qed.

End scan.

(** ** [resolve] *)

Section resolve.

Import semver.

Lemma resolve_empty (a : AddressSet) version :
  a = ∅ → resolve a version = (VersionedContract.zero, Some EmptySet).
Proof.
  intros Ha. unfold resolve.
  by rewrite (proj2 (Versions_empty a) Ha).
Qed.

Lemma resolve_nonempty (a : AddressSet) version :
  a ≠ ∅ →
  resolve a version =
  let out :=
    scan a (canonicalizeSemver version) (Versions a) VersionedContract.zero in
  if decide (out = VersionedContract.zero) then (out, Some Unresolvable)
  else (out, None).
Proof.
  intros Ha. unfold resolve.
  destruct (Nat.eqb (length (Versions a)) 0) eqn:E; [|done].
  by apply Versions_empty in E.
Qed.

Lemma candidate_nonzero (a : AddressSet) k addr :
  storedVersion a k → VersionedContract.mk k addr ≠ VersionedContract.zero.
Proof.
  intros Hk%storedVersion_prefixed [= -> _]. done.
Qed.

(** The four outcomes of [resolve]. *)
Lemma resolve_cases (a : AddressSet) version :
  let t := canonicalizeSemver version in
  (a = ∅ ∧ resolve a version = (VersionedContract.zero, Some EmptySet))
  ∨ (a ≠ ∅ ∧ (∀ k, storedVersion a k → (Compare k t < 0)%Z)
     ∧ resolve a version = (VersionedContract.zero, Some Unresolvable))
  ∨ (∃ k, storedVersion a k ∧ Compare k t = 0%Z
          ∧ (∀ k', storedVersion a k' → Compare k' t = 0%Z → ByVersion k k')
          ∧ resolve a version = (VersionedContract.mk k (Get a k), None))
  ∨ ((∀ k, storedVersion a k → Compare k t ≠ 0%Z)
     ∧ ∃ k, storedVersion a k ∧ (0 < Compare k t)%Z
            ∧ (∀ k', storedVersion a k' → ByVersion k' k)
            ∧ resolve a version = (VersionedContract.mk k (Get a k), None)).
Proof.
  intros t. destruct (decide (a = ∅)) as [Ha|Ha].
  { left. split; [done|]. by apply resolve_empty. }
  right. rewrite (resolve_nonempty a version Ha). cbv zeta. fold t.
  destruct (scan_sorted a t (Versions a) VersionedContract.zero
              (Versions_sorted a))
    as [(k & Hin & H0 & Hfirst & ->)|[(Hno & k & Hin & H1 & Hmax & ->)
                                     |[Hall ->]]].
  - right; left. apply elem_of_Versions in Hin.
    exists k. repeat split; [done..| |].
    + intros k' Hk'. apply Hfirst. by apply elem_of_Versions.
    + rewrite decide_False; [done|]. by eapply candidate_nonzero.
  - right; right. apply elem_of_Versions in Hin. split.
    { intros k' Hk'. apply Hno. by apply elem_of_Versions. }
    exists k. repeat split; [done..| |].
    + intros k' Hk'. apply Hmax. by apply elem_of_Versions.
    + rewrite decide_False; [done|]. by eapply candidate_nonzero.
  - left. split; [done|]. split; [|by rewrite decide_True].
    intros k Hk. apply Hall. by apply elem_of_Versions.
Qed.

(** The address [resolve] pairs with a stored version is in the set: under
    the version without its [v], or else under the version itself. *)
Lemma Get_stored (a : AddressSet) k :
  storedVersion a k →
  a !! strings.TrimPrefix k "v" = Some (Get a k)
  ∨ (a !! strings.TrimPrefix k "v" = None ∧ a !! k = Some (Get a k)).
Proof.
  intros (key & [x Hx] & <-).
  rewrite Get_canonicalizeSemver, Get_canonical.
  destruct (a !! strings.TrimPrefix (canonicalizeSemver key) "v") as [y|] eqn:E;
    [by left|right]. split; [done|].
  destruct (strings.HasPrefix key "v") eqn:Hp.
  - rewrite canonicalizeSemver_prefixed by done. by rewrite Hx.
  - rewrite TrimPrefix_unprefixed in E by done. congruence.
Qed.

(** C1 (amended): for a non-empty set, if a stored version ties with the
    canonical target under [semver.Compare], [resolve] returns the tying
    version that is least in byte order (the target itself when no other
    version ties) with the address [Get] finds for it, even when larger
    versions are present; if no stored version ties and one is above the
    target, [resolve] returns the highest stored version with the address
    [Get] finds for it. *)
Theorem resolve_tie_or_highest (a : AddressSet) (version : string) :
  a ≠ ∅ →
  ((∃ k, storedVersion a k ∧ Compare k (canonicalizeSemver version) = 0%Z) →
   ∃ k, resolve a version = (VersionedContract.mk k (Get a k), None)
        ∧ storedVersion a k
        ∧ Compare k (canonicalizeSemver version) = 0%Z
        ∧ (∀ k', storedVersion a k' →
                 Compare k' (canonicalizeSemver version) = 0%Z →
                 String.le k k')
        ∧ ((∀ k', storedVersion a k' →
                  Compare k' (canonicalizeSemver version) = 0%Z →
                  k' = canonicalizeSemver version) →
           k = canonicalizeSemver version)
        ∧ (a !! strings.TrimPrefix k "v" = Some (Get a k)
           ∨ (a !! strings.TrimPrefix k "v" = None
              ∧ a !! k = Some (Get a k))))
  ∧ ((∀ k, storedVersion a k →
           Compare k (canonicalizeSemver version) ≠ 0%Z) →
     (∃ k, storedVersion a k
           ∧ (0 < Compare k (canonicalizeSemver version))%Z) →
     ∃ k, resolve a version = (VersionedContract.mk k (Get a k), None)
          ∧ storedVersion a k
          ∧ (0 < Compare k (canonicalizeSemver version))%Z
          ∧ (∀ k', storedVersion a k' → (Compare k' k <= 0)%Z)
          ∧ (a !! strings.TrimPrefix k "v" = Some (Get a k)
             ∨ (a !! strings.TrimPrefix k "v" = None
                ∧ a !! k = Some (Get a k)))).
Proof.
  intros Ha.
  destruct (resolve_cases a version)
    as [[He _]|[(_ & Hall & _)|[(k & Hk & H0 & Hfirst & Hr)
                              |(Hno & k & Hk & H1 & Hmax & Hr)]]];
    [done|..].
  - split.
    + intros (k & Hk & H0). specialize (Hall _ Hk). lia.
    + intros _ (k & Hk & H1). specialize (Hall _ Hk). lia.
  - split.
    + intros _. exists k. repeat split; [done..| | |by apply Get_stored].
      * intros k' Hk' H0'.
        apply ByVersion_tied; [by apply Hfirst|by eapply Compare_tied].
      * intros Huniq. by apply Huniq.
    + intros Hno. by apply Hno in H0.
  - split.
    + intros (k0 & Hk0 & H0). by apply Hno in H0.
    + intros _ _. exists k. repeat split; [done..| |by apply Get_stored].
      intros k' Hk'. by apply ByVersion_Compare, Hmax.
Qed.

Lemma setBuild_nonempty : setBuild ≠ ∅.
Proof. apply insert_non_empty. Qed.

Lemma setShort_nonempty : setShort ≠ ∅.
Proof. apply insert_non_empty. Qed.

Lemma resolve_tie_or_highest_witness :
  (setBuild ≠ ∅
   ∧ ∃ k, resolve setBuild "1.0.0" =
            (VersionedContract.mk k (Get setBuild k), None)
          ∧ Compare k "v1.0.0" = 0%Z)
  ∧ (setShort ≠ ∅
     ∧ ∃ k, resolve setShort "1.5.0" =
              (VersionedContract.mk k (Get setShort k), None)
            ∧ (0 < Compare k "v1.5.0")%Z
            ∧ ∀ k', storedVersion setShort k' → (Compare k' k <= 0)%Z).
Proof.
  split; (split; [apply insert_non_empty|]).
  - destruct (resolve_tie_or_highest setBuild "1.0.0" setBuild_nonempty)
      as [Htie _].
    destruct Htie as (k & Hr & _ & H0 & _).
    + exists "v1.0.0". split; [|reflexivity].
      exists "1.0.0". split; [|reflexivity]. exists 1%N. reflexivity.
    + exists k. split; [exact Hr|exact H0].
  - destruct (resolve_tie_or_highest setShort "1.5.0" setShort_nonempty)
      as [_ Habove].
    destruct Habove as (k & Hr & _ & H1 & Hmax & _).
    + intros k Hk%elem_of_Versions.
      assert (Versions setShort = ["v1"; "v2.0.0"]) as E
        by (vm_compute; reflexivity).
      rewrite E in Hk.
      apply elem_of_cons in Hk as [->|Hk]; [by vm_compute|].
      apply list_elem_of_singleton in Hk as ->. by vm_compute.
    + exists "v2.0.0". split; [|reflexivity].
      exists "2.0.0". split; [|reflexivity]. exists 2%N. reflexivity.
    + exists k. split; [exact Hr|]. split; [exact H1|exact Hmax].
Defined.

(** C1, as stated, fails.  [setBuild] has the entry ["1.0.0+b"], whose
    canonical version is the canonical target, yet [resolve] returns the
    version ["v1.0.0"] and its address: the two tie, and ["v1.0.0"] is
    scanned first.  [setShort] has no entry equal to the target ["1.0.0"]
    and its highest version is ["v2.0.0"], yet [resolve] returns ["v1"]. *)
Lemma resolve_exact_match_counterexample :
  (setBuild !! "1.0.0+b" = Some 2%N
   ∧ canonicalizeSemver "1.0.0+b" = "v1.0.0+b"
   ∧ resolve setBuild "1.0.0+b" = (VersionedContract.mk "v1.0.0" 1%N, None)
   ∧ resolve setBuild "1.0.0+b"
     ≠ (VersionedContract.mk "v1.0.0+b" 2%N, None))
  ∧ (setShort !! "1.0.0" = None ∧ setShort !! "v1.0.0" = None
     ∧ Compare "v2.0.0" (canonicalizeSemver "1.0.0") = 1%Z
     ∧ Compare "v1" "v2.0.0" = (-1)%Z
     ∧ resolve setShort "1.0.0" = (VersionedContract.mk "v1" 1%N, None)
     ∧ resolve setShort "1.0.0"
       ≠ (VersionedContract.mk "v2.0.0" 2%N, None)).
Proof.
  assert (resolve setBuild "1.0.0+b"
          = (VersionedContract.mk "v1.0.0" 1%N, None)) as H1
    by (vm_compute; reflexivity).
  assert (resolve setShort "1.0.0" = (VersionedContract.mk "v1" 1%N, None))
    as H2 by (vm_compute; reflexivity).
  repeat split; try (vm_compute; reflexivity); try exact H1; try exact H2.
  - rewrite H1. discriminate.
  - rewrite H2. discriminate.
Qed.

(** C2 (amended): on the set [{"1.0.0": A, "2.0.0": B, "3.0.0": C}],
    [resolve] with target ["1.5.0"] returns the highest version above the
    target, [("v3.0.0", C)], and so does [resolve] with target ["0.5.0"]. *)
Theorem resolve_set123 (A B C : Address) :
  resolve (set123 A B C) "1.5.0" = (VersionedContract.mk "v3.0.0" C, None)
  ∧ resolve (set123 A B C) "0.5.0" = (VersionedContract.mk "v3.0.0" C, None).
Proof. split; vm_compute; reflexivity. Qed.

(** C2, as stated, fails: with target ["1.5.0"] the pair returned is the
    one of ["3.0.0"], not the one of ["2.0.0"], in either spelling. *)
Lemma resolve_set123_counterexample :
  resolve (set123 1%N 2%N 3%N) "1.5.0"
  = (VersionedContract.mk "v3.0.0" 3%N, None)
  ∧ resolve (set123 1%N 2%N 3%N) "1.5.0"
    ≠ (VersionedContract.mk "v2.0.0" 2%N, None)
  ∧ resolve (set123 1%N 2%N 3%N) "1.5.0"
    ≠ (VersionedContract.mk "2.0.0" 2%N, None).
Proof.
  assert (resolve (set123 1%N 2%N 3%N) "1.5.0"
          = (VersionedContract.mk "v3.0.0" 3%N, None)) as H
    by (vm_compute; reflexivity).
  rewrite H. repeat split; discriminate.
Qed.

(** C4: [resolve] returns an error exactly when the set is empty (the
    error is then [EmptySet], "no implementations found") or the set is
    non-empty and no stored version reaches the canonical target (the error
    is then [Unresolvable], "cannot resolve semver"). *)
Theorem resolve_error_iff (a : AddressSet) (version : string) :
  (is_Some (resolve a version).2
   ↔ a = ∅ ∨ (a ≠ ∅ ∧ noneReaches a (canonicalizeSemver version)))
  ∧ (a = ∅ →
     resolve a version = (VersionedContract.zero, Some EmptySet))
  ∧ (a ≠ ∅ → noneReaches a (canonicalizeSemver version) →
     resolve a version = (VersionedContract.zero, Some Unresolvable))
  ∧ Error EmptySet = "no implementations found"
  ∧ Error Unresolvable = "cannot resolve semver".
Proof.
  unfold noneReaches.
  destruct (resolve_cases a version)
    as [[He Hr]|[(Hne & Hall & Hr)|[(k & Hk & H0 & _ & Hr)
                                   |(_ & k & Hk & H1 & _ & Hr)]]];
    rewrite Hr; simpl; (split; [|split; [|split; [|done]]]).
  - split; [by left|done].
  - done.
  - done.
  - split; [by right|done].
  - done.
  - done.
  - split; [by intros []%is_Some_None|].
    intros [->|[_ Hall]].
    + destruct Hk as (key & [x Hx] & _). by rewrite lookup_empty in Hx.
    + specialize (Hall _ Hk). lia.
  - intros ->. destruct Hk as (key & [x Hx] & _).
    by rewrite lookup_empty in Hx.
  - intros _ Hall. specialize (Hall _ Hk). lia.
  - split; [by intros []%is_Some_None|].
    intros [->|[_ Hall]].
    + destruct Hk as (key & [x Hx] & _). by rewrite lookup_empty in Hx.
    + specialize (Hall _ Hk). lia.
  - intros ->. destruct Hk as (key & [x Hx] & _).
    by rewrite lookup_empty in Hx.
  - intros _ Hall. specialize (Hall _ Hk). lia.
Qed.

(** C9: when [resolve] succeeds, the [Version] it returns is the canonical
    form of a stored key, and so starts with ["v"], also when the key is
    stored without it. *)
Theorem resolve_version_canonical (a : AddressSet) (version : string)
    (out : VersionedContract.t) :
  resolve a version = (out, None) →
  strings.HasPrefix (VersionedContract.Version out) "v" = true
  ∧ ∃ key, is_Some (a !! key)
           ∧ VersionedContract.Version out = canonicalizeSemver key.
Proof.
  destruct (resolve_cases a version)
    as [[_ Hr]|[(_ & _ & Hr)|[(k & Hk & _ & _ & Hr)
                             |(_ & k & Hk & _ & _ & Hr)]]];
    rewrite Hr; intros [= <-]; simpl.
  - split; [by eapply storedVersion_prefixed|].
    destruct Hk as (key & ? & <-). by exists key.
  - split; [by eapply storedVersion_prefixed|].
    destruct Hk as (key & ? & <-). by exists key.
Qed.

Lemma resolve_version_canonical_witness :
  resolve (<["1.0.0" := 1%N]> ∅) "1.0.0"
  = (VersionedContract.mk "v1.0.0" 1%N, None)
  ∧ strings.HasPrefix "v1.0.0" "v" = true
  ∧ ∃ key, is_Some ((<["1.0.0" := 1%N]> ∅ : AddressSet) !! key)
           ∧ "v1.0.0" = canonicalizeSemver key.
Proof.
  assert (resolve (<["1.0.0" := 1%N]> ∅) "1.0.0"
          = (VersionedContract.mk "v1.0.0" 1%N, None)) as H
    by (vm_compute; reflexivity).
  split; [exact H|].
  exact (resolve_version_canonical _ _ _ H).
Defined.

End resolve.

(** ** [Get] *)

Section get.

Lemma Get_unprefixed (a : AddressSet) s :
  strings.HasPrefix s "v" = false →
  Get a s = match a !! s with
            | Some addr => addr
            | None => default zeroAddress (a !! ("v" ++ s))
            end.
Proof.
  intros Hs. rewrite Get_canonical, TrimPrefix_unprefixed by done.
  by rewrite canonicalizeSemver_unprefixed.
Qed.

Lemma HasPrefix_v_app s : strings.HasPrefix ("v" ++ s) "v" = true.
Proof. done. Qed.

Lemma Get_v (a : AddressSet) s : Get a ("v" ++ s) =
  match a !! s with
  | Some addr => addr
  | None => default zeroAddress (a !! ("v" ++ s))
  end.
Proof.
  rewrite Get_canonical.
  rewrite (canonicalizeSemver_prefixed ("v" ++ s)) by done.
  by rewrite TrimPrefix_v.
Qed.

(** C7 (amended): for a version string [s] without the ["v"] prefix,
    [Get s] and [Get ("v" ++ s)] return the same address; an entry stored
    under [s] is found by both queries; an entry stored under ["v" ++ s] is
    found by both queries when the set has no entry under [s]; so, when the
    set has an entry under either spelling, both queries return a stored
    entry. *)
Theorem Get_prefix_insensitive (a : AddressSet) (s : string) :
  strings.HasPrefix s "v" = false →
  Get a s = Get a ("v" ++ s)
  ∧ (is_Some (a !! s) ∨ is_Some (a !! ("v" ++ s)) →
     a !! s = Some (Get a s)
     ∨ (a !! s = None ∧ a !! ("v" ++ s) = Some (Get a s)))
  ∧ (∀ A, a !! s = Some A → Get a s = A ∧ Get a ("v" ++ s) = A)
  ∧ (∀ B, a !! s = None → a !! ("v" ++ s) = Some B →
          Get a s = B ∧ Get a ("v" ++ s) = B).
Proof.
  intros Hs. rewrite Get_v, Get_unprefixed by done.
  split; [done|]. split; [|split].
  - intros [[x Hx]|[y Hy]].
    + left. by rewrite Hx.
    + destruct (a !! s) as [x|] eqn:Hx; [by left|right].
      by rewrite Hy.
  - by intros A ->.
  - by intros B -> ->.
Qed.

Lemma Get_prefix_insensitive_witness :
  strings.HasPrefix "1.0.0" "v" = false
  ∧ Get setBuild "1.0.0" = Get setBuild "v1.0.0".
Proof.
  split; [reflexivity|].
  exact (proj1 (Get_prefix_insensitive setBuild "1.0.0" eq_refl)).
Defined.

(** C7, as stated, fails: [setBoth] has the entry ["v1.0.0"], with address
    2, and neither query finds it: both return the address 1 of the entry
    ["1.0.0"]. *)
Lemma Get_prefixed_entry_counterexample :
  strings.HasPrefix "1.0.0" "v" = false
  ∧ setBoth !! "v1.0.0" = Some 2%N
  ∧ Get setBoth "1.0.0" = 1%N
  ∧ Get setBoth "v1.0.0" = 1%N
  ∧ Get setBoth "1.0.0" ≠ 2%N
  ∧ Get setBoth "v1.0.0" ≠ 2%N.
Proof. repeat split; (reflexivity || discriminate). Qed.

(** C8 (amended): when the canonical form of the key is stored under
    neither spelling, [Get] returns the zero address; it returns nothing
    else, and the same zero address comes back when the set stores it under
    the key. *)
Theorem Get_absent (a : AddressSet) (key : string) :
  a !! strings.TrimPrefix (canonicalizeSemver key) "v" = None →
  a !! canonicalizeSemver key = None →
  Get a key = zeroAddress
  ∧ Get (<[strings.TrimPrefix (canonicalizeSemver key) "v" := zeroAddress]> a)
        key = Get a key.
Proof.
  intros H1 H2. rewrite !Get_canonical, H1, H2. split; [done|].
  by rewrite lookup_insert_eq.
Qed.

Lemma Get_absent_witness :
  (∅ : AddressSet) !! strings.TrimPrefix (canonicalizeSemver "1.0.0") "v"
  = None
  ∧ (∅ : AddressSet) !! canonicalizeSemver "1.0.0" = None
  ∧ Get ∅ "1.0.0" = zeroAddress.
Proof.
  split; [reflexivity|]. split; [reflexivity|].
  exact (proj1 (Get_absent ∅ "1.0.0" eq_refl eq_refl)).
Defined.

(** C8, as stated, fails: [Get] returns an address and no flag, and a set
    that stores the zero address under the key gives the caller exactly
    what a set without the key gives. *)
Lemma Get_found_counterexample :
  (∅ : AddressSet) !! "1.0.0" = None
  ∧ (∅ : AddressSet) !! "v1.0.0" = None
  ∧ setZero !! "1.0.0" = Some zeroAddress
  ∧ Get ∅ "1.0.0" = Get setZero "1.0.0"
  ∧ ¬ ∃ found : Address → bool,
        ∀ (a : AddressSet) key,
          found (Get a key) = true
          ↔ is_Some (a !! strings.TrimPrefix (canonicalizeSemver key) "v")
            ∨ is_Some (a !! canonicalizeSemver key).
Proof.
  repeat split; try reflexivity.
  intros [found Hf].
  pose proof (Hf ∅ "1.0.0") as H0. pose proof (Hf setZero "1.0.0") as H1.
  change (Get setZero "1.0.0") with (Get ∅ "1.0.0") in H1.
  assert (found (Get ∅ "1.0.0") = true) as Ht.
  { apply H1. left. by exists zeroAddress. }
  apply H0 in Ht as [[x Hx]|[x Hx]]; by rewrite lookup_empty in Hx.
Qed.

(** C10: when a set stores both the spelling [s] without ["v"] and the
    spelling ["v" ++ s], [Get] returns, for either query, the address
    stored under [s]. *)
Theorem Get_unprefixed_first (a : AddressSet) (s : string) (A B : Address) :
  strings.HasPrefix s "v" = false →
  a !! s = Some A →
  a !! ("v" ++ s) = Some B →
  Get a s = A ∧ Get a ("v" ++ s) = A.
Proof.
  intros Hs HA _. rewrite Get_v, Get_unprefixed by done. by rewrite HA.
Qed.

Lemma Get_unprefixed_first_witness :
  strings.HasPrefix "1.0.0" "v" = false
  ∧ setBoth !! "1.0.0" = Some 1%N
  ∧ setBoth !! "v1.0.0" = Some 2%N
  ∧ 1%N ≠ 2%N
  ∧ Get setBoth "1.0.0" = 1%N ∧ Get setBoth "v1.0.0" = 1%N.
Proof.
  split; [reflexivity|]. split; [reflexivity|]. split; [reflexivity|].
  split; [discriminate|].
  exact (Get_unprefixed_first setBoth "1.0.0" 1%N 2%N eq_refl eq_refl eq_refl).
Defined.

End get.

(** ** [Resolve] *)

Section bundle.

Context {T : Type}.

Lemma field_assign (r r' : contract) (x : T) (s : Fields.t T) :
  field r' (assign r x s) = if decide (r' = r) then x else field r' s.
Proof. destruct s, r, r'; reflexivity. Qed.

Lemma field_uniform (r : contract) (x : T) : field r (uniform x) = x.
Proof. by destruct r. Qed.

End bundle.

Section Resolve.

Lemma elem_of_contracts r : r ∈ contracts.
Proof. destruct r; unfold contracts; set_solver. Qed.

Lemma NoDup_contracts : NoDup contracts.
Proof. by apply (bool_decide_unpack _). Qed.

Lemma Resolve_steps c versions :
  Resolve c versions = steps contracts c versions zeroImplementationList.
Proof. reflexivity. Qed.

Lemma resolve_failure (a : AddressSet) version e :
  (resolve a version).2 = Some e →
  (resolve a version).1 = VersionedContract.zero
  ∧ (e = EmptySet ∨ e = Unresolvable).
Proof.
  destruct (resolve_cases a version)
    as [[_ Hr]|[(_ & _ & Hr)|[(k & _ & _ & _ & Hr)|(_ & k & _ & _ & _ & Hr)]]];
    rewrite Hr; simpl; intros [= <-]; auto.
Qed.

Lemma step_ok r c versions next implementations :
  (resolve (field r c) (field r versions)).2 = None →
  step r c versions next implementations =
  next (assign r (resolve (field r c) (field r versions)).1 implementations).
Proof.
  unfold step. destruct (resolve (field r c) (field r versions)) as [out err].
  simpl. by intros ->.
Qed.

Lemma step_fail r c versions next implementations e :
  (resolve (field r c) (field r versions)).2 = Some e →
  step r c versions next implementations =
  (assign r (resolve (field r c) (field r versions)).1 implementations,
   Some (wrap (name r) e)).
Proof.
  unfold step. destruct (resolve (field r c) (field r versions)) as [out err].
  simpl. by intros ->.
Qed.

Lemma steps_ok rs c versions implementations :
  (∀ r, r ∈ rs → (resolve (field r c) (field r versions)).2 = None) →
  steps rs c versions implementations =
  (fill rs c versions implementations, None).
Proof.
  revert implementations.
  induction rs as [|r rs IH]; intros implementations Hok; [done|].
  simpl. rewrite step_ok by (apply Hok; by left).
  apply IH. intros r' Hr'. apply Hok. by right.
Qed.

Lemma steps_fail pre r post c versions implementations e :
  (∀ r', r' ∈ pre → (resolve (field r' c) (field r' versions)).2 = None) →
  (resolve (field r c) (field r versions)).2 = Some e →
  steps (pre ++ r :: post)%list c versions implementations =
  (fill (pre ++ [r])%list c versions implementations, Some (wrap (name r) e)).
Proof.
  revert implementations.
  induction pre as [|r0 pre IH]; intros implementations Hok He; simpl.
  - by rewrite (step_fail _ _ _ _ _ e).
  - rewrite step_ok by (apply Hok; by left).
    apply IH; [|done]. intros r' Hr'. apply Hok. by right.
Qed.

Lemma field_fill r' rs c versions implementations :
  field r' (fill rs c versions implementations) =
  if decide (r' ∈ rs) then (resolve (field r' c) (field r' versions)).1
  else field r' implementations.
Proof.
  revert implementations.
  induction rs as [|r rs IH]; intros implementations; [done|].
  unfold fill in *. simpl. rewrite IH, field_assign.
  destruct (decide (r' ∈ rs)) as [Hin|Hin].
  - rewrite decide_True; [done|by right].
  - destruct (decide (r' = r)) as [->|Hne].
    + rewrite decide_True; [done|by left].
    + rewrite decide_False; [done|]. by intros [?|?]%elem_of_cons.
Qed.


(** Either every contract resolves, or there is a first one that does
    not. *)
Lemma first_failure c versions (rs : list contract) :
  (∀ r, r ∈ rs → (resolve (field r c) (field r versions)).2 = None)
  ∨ ∃ pre r post e,
      rs = (pre ++ r :: post)%list
      ∧ (∀ r', r' ∈ pre →
               (resolve (field r' c) (field r' versions)).2 = None)
      ∧ (resolve (field r c) (field r versions)).2 = Some e.
Proof.
  induction rs as [|r rs IH].
  { left. by intros r ?%elem_of_nil. }
  destruct ((resolve (field r c) (field r versions)).2) as [e|] eqn:Hr.
  { right. exists [], r, rs, e. repeat split; [|done].
    by intros r' ?%elem_of_nil. }
  destruct IH as [Hok|(pre & r1 & post & e & -> & Hok & He)].
  - left. intros r' [->|Hin]%elem_of_cons; [done|by apply Hok].
  - right. exists (r :: pre), r1, post, e. repeat split; [|done].
    intros r' [->|Hin]%elem_of_cons; [done|by apply Hok].
Qed.

(** C3 (amended): [Resolve] returns a nil error exactly when each of the
    seven contracts resolves, and the [ImplementationList] then holds the
    seven results.  When a contract fails, the error is not nil, and the
    [ImplementationList] returned with it holds the results of the
    contracts before the first failing one; the failing one and those after
    it are left at the zero value. *)
Theorem Resolve_all_or_prefix (c : ContractImplementations AddressSet)
    (versions : ContractVersions) :
  ((Resolve c versions).2 = None
   ↔ ∀ r, (resolve (field r c) (field r versions)).2 = None)
  ∧ ((Resolve c versions).2 = None →
     ∀ r, field r (Resolve c versions).1
          = (resolve (field r c) (field r versions)).1)
  ∧ (∀ pre r post,
       contracts = (pre ++ r :: post)%list →
       (∀ r', r' ∈ pre →
              (resolve (field r' c) (field r' versions)).2 = None) →
       is_Some (resolve (field r c) (field r versions)).2 →
       is_Some (Resolve c versions).2
       ∧ (∀ r', r' ∈ pre →
                field r' (Resolve c versions).1
                = (resolve (field r' c) (field r' versions)).1)
       ∧ (∀ r', r' ∈ r :: post →
                field r' (Resolve c versions).1 = VersionedContract.zero)).
Proof.
  rewrite Resolve_steps.
  assert (∀ pre r post,
    contracts = (pre ++ r :: post)%list →
    (∀ r', r' ∈ pre → (resolve (field r' c) (field r' versions)).2 = None) →
    is_Some (resolve (field r c) (field r versions)).2 →
    is_Some (steps contracts c versions zeroImplementationList).2
    ∧ (∀ r', r' ∈ pre →
             field r' (steps contracts c versions zeroImplementationList).1
             = (resolve (field r' c) (field r' versions)).1)
    ∧ (∀ r', r' ∈ r :: post →
             field r' (steps contracts c versions zeroImplementationList).1
             = VersionedContract.zero)) as Hfail.
  { intros pre r post Hsplit Hok [e He].
    pose proof NoDup_contracts as Hnd. rewrite Hsplit in Hnd.
    apply NoDup_app in Hnd as (_ & Hdisj & [Hr Hpost]%NoDup_cons).
    rewrite Hsplit, (steps_fail _ _ _ _ _ _ e) by done. cbn [fst snd].
    split; [done|]. split.
    - intros r' Hr'. rewrite field_fill, decide_True; [done|].
      apply elem_of_app. by left.
    - intros r' Hr'. rewrite field_fill.
      apply elem_of_cons in Hr' as [->|Hin].
      + rewrite decide_True by (apply elem_of_app; right; by left).
        by apply resolve_failure in He as [-> _].
      + rewrite decide_False; [apply field_uniform|].
        intros [Hp|Hs%list_elem_of_singleton]%elem_of_app.
        * apply (Hdisj _ Hp). by right.
        * by subst. }
  split; [|split; [|exact Hfail]].
  - split.
    + intros Hnil r.
      destruct (first_failure c versions contracts)
        as [Hok|(pre & r1 & post & e & Hsplit & Hok & He)].
      * apply Hok, elem_of_contracts.
      * destruct (Hfail pre r1 post Hsplit Hok) as [[e' He'] _]; [by eexists|].
        congruence.
    + intros Hok. by rewrite steps_ok.
  - intros Hnil r.
    destruct (first_failure c versions contracts)
      as [Hok|(pre & r1 & post & e & Hsplit & Hok & He)].
    + rewrite steps_ok by done. cbn [fst].
      rewrite field_fill, decide_True; [done|apply elem_of_contracts].
    + destruct (Hfail pre r1 post Hsplit Hok) as [[e' He'] _]; [by eexists|].
      congruence.
Qed.

(** C3, as stated, fails: in [bundleTwoBelow] the fourth contract is the
    first that does not resolve, and the [ImplementationList] that [Resolve]
    returns with the error holds the results of the first three. *)
Lemma Resolve_partial_counterexample :
  is_Some (Resolve bundleTwoBelow versionsTwo).2
  ∧ Fields.L1CrossDomainMessenger (Resolve bundleTwoBelow versionsTwo).1
    = VersionedContract.mk "v2.0.0" 1%N
  ∧ (Resolve bundleTwoBelow versionsTwo).1 ≠ zeroImplementationList.
Proof.
  assert (Resolve bundleTwoBelow versionsTwo
          = (assign L1CrossDomainMessenger (VersionedContract.mk "v2.0.0" 1%N)
              (assign L1ERC721Bridge (VersionedContract.mk "v2.0.0" 1%N)
                (assign L1StandardBridge (VersionedContract.mk "v2.0.0" 1%N)
                  zeroImplementationList)),
             Some (wrap "L2OutputOracle" Unresolvable))) as ->
    by (vm_compute; reflexivity).
  repeat split; [by eexists|discriminate].
Qed.



End Resolve.

(** ** [Merge] *)

Section Merge.

Lemma entries_insert_eq (σ : store) l m : entries (<[l := m]> σ) (Some l) = m.
Proof. unfold entries. by rewrite lookup_insert_eq. Qed.

Lemma entries_insert_ne (σ : store) l m (x : ref) :
  x ≠ Some l → entries (<[l := m]> σ) x = entries σ x.
Proof.
  destruct x as [l'|]; [|done]. intros Hne. unfold entries.
  rewrite lookup_insert_ne; [done|congruence].
Qed.

(** The loop of [maps.Copy] into a map that is not nil. *)
Lemma copy_loop (σ : store) l (kvs : list (string * Address)) :
  ∃ σ', foldr (λ kv acc, acc ≫= mapassign (Some l) kv.1 kv.2) (Some σ) kvs
        = Some σ'
        ∧ entries σ' (Some l)
          = (list_to_map kvs : AddressSet) ∪ entries σ (Some l)
        ∧ ∀ x, x ≠ Some l → entries σ' x = entries σ x.
Proof.
  induction kvs as [|[k v] kvs (σ1 & Hf & Hl & Hother)].
  { exists σ. simpl. by rewrite (left_id_L ∅ (∪)). }
  simpl. rewrite Hf. simpl. eexists. split; [done|]. split.
  - rewrite lookup_insert_eq. simpl.
    change (default ∅ (σ1 !! l)) with (entries σ1 (Some l)).
    change (default ∅ (σ !! l)) with (entries σ (Some l)).
    by rewrite Hl, insert_union_l.
  - intros x Hx. by rewrite entries_insert_ne, Hother.
Qed.

Lemma copySemverMap_spec (σ : store) l (src : ref) :
  ∃ σ', copySemverMap (Some l) src σ = Some σ'
        ∧ entries σ' (Some l) = entries σ src ∪ entries σ (Some l)
        ∧ ∀ x, x ≠ Some l → entries σ' x = entries σ x.
Proof.
  destruct (copy_loop σ l (map_to_list (entries σ src)))
    as (σ' & Hc & Hl & Hother).
  exists σ'. split; [done|]. split; [|done].
  by rewrite Hl, list_to_map_to_list.
Qed.

(** Copying into the nil map panics as soon as there is an entry to copy. *)
Lemma copySemverMap_nil (σ : store) (src : ref) :
  copySemverMap None src σ
  = if decide (entries σ src = ∅) then Some σ else None.
Proof.
  unfold copySemverMap. case_decide as He.
  - by rewrite He, map_to_list_empty.
  - destruct (map_to_list (entries σ src)) as [|kv kvs] eqn:E.
    + by apply map_to_list_empty_iff in E.
    + simpl. by destruct (foldr _ _ kvs).
Qed.

Lemma Merge_copies c other σ : Merge c other σ = copies contracts c other σ.
Proof.
  unfold Merge, copies, contracts, field.
  repeat (destruct (copySemverMap _ _ _); simpl; [|done]). done.
Qed.

(** The calls of [Merge] for contracts whose destination maps are not nil,
    differ from one another and from the source maps of the other
    contracts. *)
Lemma copies_spec rs (c other : ContractImplementations ref) (σ : store) :
  NoDup rs →
  (∀ r, r ∈ rs → is_Some (field r c)) →
  (∀ r r', r ∈ rs → r' ∈ rs → r ≠ r' →
           field r c ≠ field r' c ∧ field r c ≠ field r' other) →
  ∃ σ', copies rs c other σ = Some σ'
        ∧ (∀ r, r ∈ rs →
                entries σ' (field r c)
                = entries σ (field r other) ∪ entries σ (field r c))
        ∧ (∀ r, r ∈ rs →
                entries σ' (field r other) = entries σ (field r other))
        ∧ (∀ x, (∀ r, r ∈ rs → field r c ≠ x) → entries σ' x = entries σ x).
Proof.
  revert σ. induction rs as [|r rs IH]; intros σ Hnd Hnn Hsep.
  { exists σ. split; [done|]. split; [|split]; [..|done];
      by intros r ?%elem_of_nil. }
  apply NoDup_cons in Hnd as [Hr Hnd].
  destruct (Hnn r) as [l Hl]; [by left|].
  simpl. rewrite Hl.
  destruct (copySemverMap_spec σ l (field r other)) as (σ1 & -> & H1 & H1o).
  simpl.
  destruct (IH σ1 Hnd) as (σ' & -> & Hdst & Hsrc & Hrest).
  { intros r' Hr'. apply Hnn. by right. }
  { intros r1 r2 H1' H2'. apply Hsep; by right. }
  assert (∀ r', r' ∈ rs → r ≠ r') as Hneq by (intros r' Hr' ->; done).
  assert (∀ r', r' ∈ rs → field r' c ≠ Some l) as Hd1.
  { intros r' Hr'. rewrite <- Hl.
    apply Hsep; [by right|by left|]. by apply not_eq_sym, Hneq. }
  assert (∀ r', r' ∈ rs → field r' other ≠ Some l) as Hs1.
  { intros r' Hr'. rewrite <- Hl.
    apply not_eq_sym, Hsep; [by left|by right|]. by apply Hneq. }
  assert (∀ r', r' ∈ rs → field r' c ≠ field r other) as Hd2.
  { intros r' Hr'. apply Hsep; [by right|by left|].
    by apply not_eq_sym, Hneq. }
  exists σ'. split; [done|]. split; [|split].
  - intros r' [->|Hr']%elem_of_cons.
    + rewrite Hl, (Hrest (Some l) Hd1). exact H1.
    + by rewrite (Hdst _ Hr'), (H1o _ (Hd1 _ Hr')), (H1o _ (Hs1 _ Hr')).
  - intros r' [->|Hr']%elem_of_cons.
    + rewrite (Hrest _ Hd2).
      destruct (decide (field r other = Some l)) as [E|E].
      * by rewrite E, H1, E, (idemp_L (∪)).
      * by apply H1o.
    + rewrite (Hsrc _ Hr'). by apply H1o, Hs1.
  - intros x Hx. rewrite Hrest.
    + apply H1o. rewrite <- Hl. apply not_eq_sym, Hx. by left.
    + intros r' Hr'. apply Hx. by right.
Qed.

(** C6 (amended): when the seven maps of [dst] and of [src] are not nil,
    and no map of [dst] is also the map of another contract in [dst] or in
    [src], [Merge] terminates without panic; afterwards each map of [dst]
    gives a key the address [src] had for it when [src] had one, else the
    address [dst] had for it, and the maps of [src] are as before. *)
Theorem Merge_separate (c other : ContractImplementations ref) (σ : store) :
  (∀ r, is_Some (field r c)) →
  (∀ r, is_Some (field r other)) →
  (∀ r r', r ≠ r' → field r c ≠ field r' c ∧ field r c ≠ field r' other) →
  ∃ σ', Merge c other σ = Some σ'
        ∧ ∀ r,
            (∀ k, entries σ' (field r c) !! k
                  = match entries σ (field r other) !! k with
                    | Some addr => Some addr
                    | None => entries σ (field r c) !! k
                    end)
            ∧ entries σ' (field r other) = entries σ (field r other).
Proof.
  intros Hdst _ Hsep. rewrite Merge_copies.
  destruct (copies_spec contracts c other σ NoDup_contracts)
    as (σ' & -> & Hd & Hs & _).
  { intros r _. apply Hdst. }
  { intros r r' _ _. apply Hsep. }
  exists σ'. split; [done|]. intros r. split.
  - intros k. rewrite (Hd r (elem_of_contracts r)), lookup_union.
    destruct (entries σ (field r other) !! k),
      (entries σ (field r c) !! k); done.
  - apply Hs, elem_of_contracts.
Qed.

Lemma Merge_separate_witness :
  ∃ σ', Merge dstOwn srcOwn storeOwn = Some σ'
        ∧ entries storeOwn (Some 0) !! "1.0.0" = Some 1%N
        ∧ entries σ' (Some 0) !! "1.0.0" = Some 2%N
        ∧ entries σ' (Some 0) !! "2.0.0" = Some 3%N
        ∧ entries σ' (Some 7) = entries storeOwn (Some 7).
Proof.
  destruct (Merge_separate dstOwn srcOwn storeOwn) as (σ' & HM & Hspec).
  - intros r. destruct r; by eexists.
  - intros r. destruct r; by eexists.
  - intros r r' Hne. destruct r, r'; try done; split; discriminate.
  - exists σ'. split; [exact HM|]. split; [reflexivity|].
    destruct (Hspec L1CrossDomainMessenger) as [Hk Hsrc].
    split; [exact (Hk "1.0.0")|]. split; [exact (Hk "2.0.0")|exact Hsrc].
Defined.

(** C6, as stated, fails.  All fourteen maps are there, and the map at
    location 0 is the [L1CrossDomainMessenger] of [dst] and the
    [L1ERC721Bridge] of [src]: the first copy writes into it, so this map of
    [src] changes, and the second copy hands [dst] a key that neither of
    the two [L1ERC721Bridge] maps had. *)
Lemma Merge_shared_counterexample :
  (∀ r, is_Some (field r dstShared) ∧ is_Some (field r srcShared))
  ∧ entries storeShared (Fields.L1ERC721Bridge srcShared) = ∅
  ∧ entries storeShared (Fields.L1ERC721Bridge dstShared) = ∅
  ∧ Merge dstShared srcShared storeShared = Some storeSharedAfter
  ∧ entries storeSharedAfter (Fields.L1ERC721Bridge srcShared)
    = <["1.0.0" := 1%N]> ∅
  ∧ entries storeSharedAfter (Fields.L1ERC721Bridge dstShared) !! "1.0.0"
    = Some 1%N.
Proof.
  split; [intros r; destruct r; split; by eexists|].
  repeat split; vm_compute; reflexivity.
Qed.

End Merge.

(** * Further properties of the code *)

(** ** [canonicalizeSemver] and [Versions] *)

Section more_versions.

Import semver.

(** X1: [canonicalizeSemver] is idempotent, its result starts with ["v"],
    and two strings have the same canonical form exactly when they are
    equal or one is the other, which has no ["v"], with a ["v"] put
    before. *)
Theorem canonicalizeSemver_spellings (s s' : string) :
  canonicalizeSemver (canonicalizeSemver s) = canonicalizeSemver s
  ∧ strings.HasPrefix (canonicalizeSemver s) "v" = true
  ∧ (canonicalizeSemver s = canonicalizeSemver s'
     ↔ s = s'
       ∨ (s = "v" ++ s' ∧ strings.HasPrefix s' "v" = false)
       ∨ (s' = "v" ++ s ∧ strings.HasPrefix s "v" = false)).
Proof.
  split; [apply canonicalizeSemver_idem|].
  split; [apply HasPrefix_canonicalizeSemver|].
  destruct (strings.HasPrefix s "v") eqn:Hs,
    (strings.HasPrefix s' "v") eqn:Hs'.
  - rewrite !canonicalizeSemver_prefixed by done. split; [by left|].
    by intros [?|[[_ ?]|[_ ?]]].
  - rewrite canonicalizeSemver_prefixed, canonicalizeSemver_unprefixed
      by done.
    split; [intros ?; right; by left|].
    intros [E|[[? _]|[_ ?]]]; [|done..]. congruence.
  - rewrite canonicalizeSemver_unprefixed, canonicalizeSemver_prefixed
      by done.
    split; [intros ?; right; by right|].
    intros [E|[[_ ?]|[? _]]]; [|done..]. congruence.
  - rewrite !canonicalizeSemver_unprefixed by done. split.
    + intros H. left. by apply (inj (String.append "v")).
    + intros [->|[[E _]|[E _]]]; [done|..]; subst.
      * by rewrite HasPrefix_v_app in Hs.
      * by rewrite HasPrefix_v_app in Hs'.
Qed.

Lemma StronglySorted_lookup {A} (R : relation A) (l : list A) i j x y :
  StronglySorted R l → i < j → l !! i = Some x → l !! j = Some y → R x y.
Proof.
  intros Hs. revert i j.
  induction Hs as [|z l Hs IH Hz]; intros i j Hij Hi Hj; [done|].
  destruct j as [|j]; [lia|]. simpl in Hj.
  destruct i as [|i]; simpl in Hi.
  - injection Hi as ->. rewrite Forall_forall in Hz.
    by eapply Hz, list_elem_of_lookup_2.
  - apply (IH i j); [lia|done..].
Qed.

(** X2: [Versions] returns the canonical forms of all the keys, one per
    key, in ascending order: an earlier element never compares above a
    later one, and of two that tie the earlier is not after the later in
    byte order.  The order in which the map hands out its keys has no
    effect. *)
Theorem Versions_sorted_canonical (a : AddressSet) :
  Versions a ≡ₚ canonicalizeSemver <$> Keys a
  ∧ length (Versions a) = size a
  ∧ (∀ k, k ∈ Versions a ↔ ∃ key, is_Some (a !! key)
                                  ∧ canonicalizeSemver key = k)
  ∧ (∀ (i j : nat) ki kj, (i ≤ j)%nat →
       Versions a !! i = Some ki → Versions a !! j = Some kj →
       (Compare ki kj <= 0)%Z ∧ (Compare ki kj = 0%Z → String.le ki kj))
  ∧ (∀ keys, keys ≡ₚ Keys a →
             Sort (canonicalizeSemver <$> keys) = Versions a).
Proof.
  split; [apply Sort_Permutation|]. split; [apply Versions_length|].
  split; [apply elem_of_Versions|]. split; [|apply Versions_any_order].
  intros i j ki kj Hij Hi Hj.
  assert (ByVersion ki kj) as Hle.
  { destruct (decide (i = j)) as [->|Hne].
    - assert (ki = kj) as -> by congruence. apply ByVersion_refl.
    - apply (StronglySorted_lookup _ (Versions a) i j);
        [apply Versions_sorted|lia|done..]. }
  split; [by apply ByVersion_Compare|by apply ByVersion_tied].
Qed.

End more_versions.

(** ** [resolve] *)

Section more_resolve.

Import semver.

Lemma Compare_valid k t :
  (0 <= Compare k t)%Z → IsValid t = true → IsValid k = true.
Proof.
  unfold Compare, IsValid.
  destruct (parse k), (parse t); (done || lia).
Qed.

Lemma Compare_invalid_target k t :
  IsValid t = false →
  (0 <= Compare k t)%Z ∧ (Compare k t = 0%Z ↔ IsValid k = false).
Proof.
  unfold Compare, IsValid.
  destruct (parse k), (parse t); try done; intros _;
    (split; [lia|split; intros; (done || lia)]).
Qed.

(** X3: a successful [resolve] returns a stored version that is not below
    the target, with an address that the set holds for it: under the
    version without its ["v"], or else under the version itself. *)
Theorem resolve_sound (a : AddressSet) (version : string)
    (out : VersionedContract.t) :
  resolve a version = (out, None) →
  storedVersion a (VersionedContract.Version out)
  ∧ (0 <= Compare (VersionedContract.Version out)
                  (canonicalizeSemver version))%Z
  ∧ (a !! strings.TrimPrefix (VersionedContract.Version out) "v"
     = Some (VersionedContract.Address out)
     ∨ (a !! strings.TrimPrefix (VersionedContract.Version out) "v" = None
        ∧ a !! VersionedContract.Version out
          = Some (VersionedContract.Address out))).
Proof.
  destruct (resolve_cases a version)
    as [[_ Hr]|[(_ & _ & Hr)|[(k & Hk & H0 & _ & Hr)
                             |(_ & k & Hk & H1 & _ & Hr)]]];
    rewrite Hr; intros [= <-]; simpl;
    (split; [done|split; [lia|by apply Get_stored]]).
Qed.

Lemma resolve_sound_witness :
  resolve setShort "1.5.0" = (VersionedContract.mk "v2.0.0" 2%N, None)
  ∧ storedVersion setShort "v2.0.0"
  ∧ (0 <= Compare "v2.0.0" "v1.5.0")%Z.
Proof.
  assert (resolve setShort "1.5.0"
          = (VersionedContract.mk "v2.0.0" 2%N, None)) as H
    by (vm_compute; reflexivity).
  split; [exact H|].
  destruct (resolve_sound _ _ _ H) as (H1 & H2 & _).
  split; [exact H1|exact H2].
Defined.

(** X4: [resolve] reads its target through [canonicalizeSemver] only: the
    target with and without the ["v"] give the same result. *)
Theorem resolve_target_spelling (a : AddressSet) (version : string) :
  resolve a (canonicalizeSemver version) = resolve a version
  ∧ (strings.HasPrefix version "v" = false →
     resolve a ("v" ++ version) = resolve a version).
Proof.
  assert (resolve a (canonicalizeSemver version) = resolve a version) as H.
  { unfold resolve. by rewrite canonicalizeSemver_idem. }
  split; [done|]. intros Hv.
  by rewrite <- H, canonicalizeSemver_unprefixed.
Qed.

(** X5: when the canonical target is a valid semantic version, the version
    of a successful [resolve] is valid too: a key that is not a semantic
    version is never the answer to a valid target. *)
Theorem resolve_valid (a : AddressSet) (version : string)
    (out : VersionedContract.t) :
  IsValid (canonicalizeSemver version) = true →
  resolve a version = (out, None) →
  IsValid (VersionedContract.Version out) = true.
Proof.
  intros Hv Hr.
  destruct (resolve_cases a version)
    as [[_ Hr']|[(_ & _ & Hr')|[(k & Hk & H0 & _ & Hr')
                               |(_ & k & Hk & H1 & _ & Hr')]]];
    rewrite Hr' in Hr; injection Hr as <-; simpl;
    apply (Compare_valid _ (canonicalizeSemver version)); (done || lia).
Qed.

Lemma resolve_valid_witness :
  IsValid (canonicalizeSemver "1.5.0") = true
  ∧ resolve setShort "1.5.0" = (VersionedContract.mk "v2.0.0" 2%N, None)
  ∧ IsValid "v2.0.0" = true.
Proof.
  assert (resolve setShort "1.5.0"
          = (VersionedContract.mk "v2.0.0" 2%N, None)) as H
    by (vm_compute; reflexivity).
  split; [reflexivity|]. split; [exact H|].
  exact (resolve_valid setShort "1.5.0" _ eq_refl H).
Defined.

(** X6: when the canonical target is not a valid semantic version,
    [resolve] succeeds on every non-empty set, and when a stored version
    is invalid as well, the version returned is an invalid one, whatever
    valid versions the set has. *)
Theorem resolve_invalid_target (a : AddressSet) (version : string) :
  a ≠ ∅ →
  IsValid (canonicalizeSemver version) = false →
  (resolve a version).2 = None
  ∧ ((∃ k, storedVersion a k ∧ IsValid k = false) →
     IsValid (VersionedContract.Version (resolve a version).1) = false).
Proof.
  intros Ha Hv.
  destruct (resolve_cases a version)
    as [[He _]|[(_ & Hall & _)|[(k & Hk & H0 & _ & Hr)
                              |(Hno & k & Hk & H1 & _ & Hr)]]];
    [done|..].
  - exfalso. apply map_choose in Ha as (key & x & Hx).
    assert (storedVersion a (canonicalizeSemver key)) as Hs
      by (exists key; eauto).
    specialize (Hall _ Hs).
    destruct (Compare_invalid_target (canonicalizeSemver key) _ Hv). lia.
  - rewrite Hr. simpl. split; [done|]. intros _.
    by apply (Compare_invalid_target k _ Hv).
  - rewrite Hr. simpl. split; [done|]. intros (k0 & Hk0 & Hi).
    exfalso. apply (Hno _ Hk0).
    by apply (Compare_invalid_target k0 _ Hv).
Qed.

Lemma resolve_invalid_target_witness :
  setShort ≠ ∅
  ∧ IsValid (canonicalizeSemver "latest") = false
  ∧ (resolve setShort "latest").2 = None.
Proof.
  split; [apply insert_non_empty|]. split; [reflexivity|].
  exact (proj1 (resolve_invalid_target setShort "latest"
                  (insert_non_empty _ _ _) eq_refl)).
Defined.

Lemma Versions_singleton key (A : Address) :
  Versions {[key := A]} = [canonicalizeSemver key].
Proof.
  unfold Versions, Keys. by rewrite dom_singleton_L, elements_singleton.
Qed.

(** X7: on a set with one entry, [resolve] returns the canonical form of
    its key with its address when the key is not below the target, and the
    error [Unresolvable] when it is. *)
Theorem resolve_singleton (key : string) (A : Address) (version : string) :
  resolve {[key := A]} version =
  if (0 <=? Compare (canonicalizeSemver key)
                    (canonicalizeSemver version))%Z
  then (VersionedContract.mk (canonicalizeSemver key) A, None)
  else (VersionedContract.zero, Some Unresolvable).
Proof.
  assert (Get {[key := A]} (canonicalizeSemver key) = A) as HG.
  { rewrite Get_canonicalizeSemver, Get_canonical.
    destruct (strings.HasPrefix key "v") eqn:Hp.
    - rewrite canonicalizeSemver_prefixed by done.
      destruct key as [|c key]; [done|].
      rewrite HasPrefix_v in Hp. apply Ascii.eqb_eq in Hp as <-.
      change (strings.TrimPrefix (String "v" key) "v") with key.
      rewrite lookup_singleton_ne, lookup_singleton_eq; [done|].
      intros H. apply (f_equal String.length) in H. simpl in H. lia.
    - rewrite TrimPrefix_unprefixed by done.
      by rewrite lookup_singleton_eq. }
  rewrite resolve_nonempty by apply insert_non_empty.
  cbv zeta. rewrite Versions_singleton. simpl.
  destruct (Z.leb_spec 0 (Compare (canonicalizeSemver key)
                                  (canonicalizeSemver version))) as [Hge|Hlt].
  - rewrite HG.
    assert (VersionedContract.mk (canonicalizeSemver key) A
            ≠ VersionedContract.zero) as Hnz.
    { apply (candidate_nonzero {[key := A]}). exists key.
      by rewrite lookup_singleton_eq. }
    destruct (Z.eqb_spec (Compare (canonicalizeSemver key)
                                  (canonicalizeSemver version)) 0);
      by rewrite decide_False.
  - by rewrite decide_True.
Qed.

End more_resolve.

(** ** [Check] *)

Section Check.

Import semver.

Lemma checkField_None r str :
  checkField r str = None
  ↔ str ≠ "" ∧ IsValid (canonicalizeSemver str) = true.
Proof.
  unfold checkField. destruct (String.eqb_spec str "") as [->|Hne].
  - split; [done|]. by intros [? _].
  - destruct (IsValid (canonicalizeSemver str)); simpl.
    + done.
    + split; [done|]. by intros [_ ?].
Qed.

Lemma checkFields_None rs c :
  checkFields rs c = None ↔ ∀ r, r ∈ rs → fieldOk c r.
Proof.
  induction rs as [|r rs IH]; simpl.
  - split; [|done]. by intros _ r ?%elem_of_nil.
  - destruct (checkField r (field r c)) as [e|] eqn:E.
    + split; [done|]. intros H.
      assert (checkField r (field r c) = None) as E'
        by (apply checkField_None, H; by left).
      congruence.
    + rewrite IH. apply checkField_None in E. split.
      * intros H r' [->|Hin]%elem_of_cons; [done|by apply H].
      * intros H r' Hin. apply H. by right.
Qed.

(** X8: [Check] returns no error exactly when every one of the seven
    fields is non-empty and is, once canonicalized, a valid semantic
    version. *)
Theorem Check_ok_iff (c : ContractVersions) :
  Check c = None
  ↔ ∀ r, field r c ≠ ""
         ∧ IsValid (canonicalizeSemver (field r c)) = true.
Proof.
  unfold Check. rewrite checkFields_None. split.
  - intros H r. apply H, elem_of_contracts.
  - intros H r _. apply H.
Qed.



Lemma Resolve_ok_fields c versions implementations :
  Resolve c versions = (implementations, None) →
  ∀ r, resolve (field r c) (field r versions)
       = (field r implementations, None).
Proof.
  rewrite Resolve_steps. intros HR r.
  destruct (first_failure c versions contracts)
    as [Hok|(pre & r1 & post & e & Hsplit & Hok & He)].
  - rewrite steps_ok in HR by done.
    pose proof (f_equal fst HR) as HI. cbn [fst] in HI. rewrite <- HI.
    rewrite field_fill, decide_True by apply elem_of_contracts.
    rewrite <- (Hok r (elem_of_contracts r)).
    by destruct (resolve (field r c) (field r versions)).
  - rewrite Hsplit, (steps_fail _ _ _ _ _ _ e) in HR by done. done.
Qed.

(** X10: when the targets pass [Check] and [Resolve] returns no error,
    every contract of the result has a valid semantic version that is
    stored in the set of the contract and is not below its target. *)
Theorem Check_Resolve_valid (c : ContractImplementations AddressSet)
    (versions : ContractVersions) (implementations : ImplementationList) :
  Check versions = None →
  Resolve c versions = (implementations, None) →
  ∀ r,
    IsValid (VersionedContract.Version (field r implementations)) = true
    ∧ storedVersion (field r c)
        (VersionedContract.Version (field r implementations))
    ∧ (0 <= Compare (VersionedContract.Version (field r implementations))
                    (canonicalizeSemver (field r versions)))%Z.
Proof.
  intros HC HR r.
  pose proof (Resolve_ok_fields _ _ _ HR r) as Hr.
  destruct (resolve_cases (field r c) (field r versions))
    as [[_ Hr']|[(_ & _ & Hr')|[(k & Hk & H0 & _ & Hr')
                               |(_ & k & Hk & H1 & _ & Hr')]]];
    rewrite Hr' in Hr; try discriminate Hr.
  all: assert (field r implementations
               = VersionedContract.mk k (Get (field r c) k)) as ->
         by congruence.
  all: simpl; split; [|split; [done|lia]].
  all: apply (Compare_valid _ (canonicalizeSemver (field r versions)));
         [lia|].
  all: apply (proj1 (checkFields_None contracts versions) HC),
         elem_of_contracts.
Qed.

Lemma Check_Resolve_valid_witness :
  Check versionsTwo = None
  ∧ (Resolve bundleAll versionsTwo).2 = None
  ∧ ∀ r, IsValid (VersionedContract.Version
                    (field r (Resolve bundleAll versionsTwo).1)) = true.
Proof.
  assert (Resolve bundleAll versionsTwo
          = ((Resolve bundleAll versionsTwo).1, None)) as H
    by (vm_compute; reflexivity).
  split; [reflexivity|]. split; [vm_compute; reflexivity|].
  intros r.
  exact (proj1 (Check_Resolve_valid bundleAll versionsTwo _ eq_refl H r)).
Defined.

End Check.

(** ** [Merge], whatever maps are shared *)

Section more_Merge.

(** The loop of [maps.Copy] writes at the location of [dst] only. *)
Lemma copy_loop_store (σ σ' : store) l (kvs : list (string * Address)) :
  foldr (λ kv acc, acc ≫= mapassign (Some l) kv.1 kv.2) (Some σ) kvs
  = Some σ' →
  ∀ l', l' ≠ l → σ' !! l' = σ !! l'.
Proof.
  revert σ'. induction kvs as [|[k v] kvs IH]; intros σ' H l' Hl'.
  { by injection H as <-. }
  simpl in H.
  destruct (foldr _ _ kvs) as [σ1|] eqn:E; [|done]. simpl in H.
  injection H as <-. rewrite lookup_insert_ne by done. by apply IH.
Qed.

Lemma copySemverMap_writes dst src (σ σ' : store) :
  copySemverMap dst src σ = Some σ' →
  (∀ l, dst ≠ Some l → σ' !! l = σ !! l)
  ∧ (∀ x k, is_Some (entries σ x !! k) → is_Some (entries σ' x !! k)).
Proof.
  destruct dst as [l|].
  - intros H. split.
    + intros l' Hl'. eapply copy_loop_store; [exact H|congruence].
    + destruct (copySemverMap_spec σ l src) as (σ1 & E & Hl & Ho).
      assert (σ1 = σ') as -> by congruence.
      intros x k Hk. destruct (decide (x = Some l)) as [->|Hx].
      * rewrite Hl. apply lookup_union_is_Some. by right.
      * by rewrite Ho.
  - rewrite copySemverMap_nil. case_decide; [|done].
    by intros [= <-].
Qed.

Lemma copies_writes rs c other (σ σ' : store) :
  copies rs c other σ = Some σ' →
  (∀ l, (∀ r, r ∈ rs → field r c ≠ Some l) → σ' !! l = σ !! l)
  ∧ (∀ x k, is_Some (entries σ x !! k) → is_Some (entries σ' x !! k)).
Proof.
  revert σ. induction rs as [|r rs IH]; intros σ H.
  { by injection H as <-. }
  simpl in H.
  destruct (copySemverMap (field r c) (field r other) σ) as [σ1|] eqn:E;
    [|done]. simpl in H.
  destruct (copySemverMap_writes _ _ _ _ E) as [Hw1 Hk1].
  destruct (IH _ H) as [Hw Hk]. split.
  - intros l Hl. rewrite Hw, Hw1; [done|..].
    + apply Hl. by left.
    + intros r' Hr'. apply Hl. by right.
  - intros x k Hx. by apply Hk, Hk1.
Qed.

(** X11: [Merge] writes into the maps of [dst] and nowhere else: every
    other map of the store is, after [Merge], what it was before. *)
Theorem Merge_frame (c other : ContractImplementations ref) (σ σ' : store)
    (l : nat) :
  Merge c other σ = Some σ' →
  (∀ r, field r c ≠ Some l) →
  σ' !! l = σ !! l ∧ entries σ' (Some l) = entries σ (Some l).
Proof.
  rewrite Merge_copies. intros H Hl.
  destruct (copies_writes _ _ _ _ _ H) as [Hw _].
  assert (σ' !! l = σ !! l) as E by (apply Hw; intros r _; apply Hl).
  split; [done|]. unfold entries. by rewrite E.
Qed.

Lemma Merge_shared_run :
  Merge dstShared srcShared storeShared = Some storeSharedAfter.
Proof. apply (bool_decide_unpack _). vm_compute. exact I. Qed.

Lemma Merge_frame_witness :
  Merge dstShared srcShared storeShared = Some storeSharedAfter
  ∧ storeSharedAfter !! 7 = storeShared !! 7.
Proof.
  split; [exact Merge_shared_run|].
  refine (proj1 (Merge_frame dstShared srcShared storeShared
                   storeSharedAfter 7 Merge_shared_run _)).
  intros r. destruct r; discriminate.
Defined.

(** X12: [Merge] never takes a key away: a key that a map of the store
    has before [Merge], this map has after it, also when maps are shared
    between contracts or between [dst] and [src]. *)
Theorem Merge_keeps_keys (c other : ContractImplementations ref)
    (σ σ' : store) (x : ref) (k : string) :
  Merge c other σ = Some σ' →
  is_Some (entries σ x !! k) →
  is_Some (entries σ' x !! k).
Proof.
  rewrite Merge_copies. intros H.
  by apply (copies_writes _ _ _ _ _ H).
Qed.

Lemma Merge_keeps_keys_witness :
  is_Some (entries storeShared (Some 7) !! "1.0.0")
  ∧ is_Some (entries storeSharedAfter (Some 7) !! "1.0.0").
Proof.
  assert (is_Some (entries storeShared (Some 7) !! "1.0.0")) as H
    by (exists 1%N; reflexivity).
  split; [exact H|].
  exact (Merge_keeps_keys dstShared srcShared storeShared storeSharedAfter
           (Some 7) "1.0.0" Merge_shared_run H).
Defined.

Lemma copies_panics rs (c other : ContractImplementations ref) (σ : store) :
  NoDup rs →
  (∀ r r' l, r ∈ rs → r' ∈ rs → r ≠ r' →
             field r c = Some l → field r' other ≠ Some l) →
  copies rs c other σ = None
  ↔ ∃ r, r ∈ rs ∧ field r c = None ∧ entries σ (field r other) ≠ ∅.
Proof.
  revert σ. induction rs as [|r rs IH]; intros σ Hnd Hsep.
  { split; [done|]. by intros (r & ?%elem_of_nil & _). }
  apply NoDup_cons in Hnd as [Hr Hnd].
  assert (∀ r', r' ∈ rs → r ≠ r') as Hneq by (intros r' Hr' ->; done).
  assert (∀ r r' l, r ∈ rs → r' ∈ rs → r ≠ r' →
                    field r c = Some l → field r' other ≠ Some l) as Hsep'.
  { intros r1 r2 l H1 H2. apply Hsep; by right. }
  simpl. destruct (field r c) as [l|] eqn:Hl.
  - destruct (copySemverMap_spec σ l (field r other)) as (σ1 & E & _ & Ho).
    rewrite E. simpl. rewrite (IH σ1 Hnd Hsep').
    assert (∀ r', r' ∈ rs →
                  entries σ1 (field r' other) = entries σ (field r' other))
      as Hsame.
    { intros r' Hr'. apply Ho.
      apply (Hsep r r' l); [by left|by right|by apply Hneq|done]. }
    split.
    + intros (r' & Hr' & Hn & He). exists r'.
      rewrite <- (Hsame _ Hr'). repeat split; [by right|done..].
    + intros (r' & [->|Hr']%elem_of_cons & Hn & He); [congruence|].
      exists r'. by rewrite (Hsame _ Hr').
  - rewrite copySemverMap_nil. case_decide as He; simpl.
    + rewrite (IH σ Hnd Hsep'). split.
      * intros (r' & Hr' & Hn & He'). exists r'.
        repeat split; [by right|done..].
      * intros (r' & [->|Hr']%elem_of_cons & Hn & He'); [done|].
        by exists r'.
    + split; [|done]. intros _. exists r. repeat split; [by left|done..].
Qed.

(** X13: when no map of [dst] is the map of another contract in [src],
    [Merge] panics exactly when some contract has a nil map in [dst] and at
    least one entry in [src]; in particular a nil map in [dst] is harmless
    as long as there is nothing to copy into it. *)
Theorem Merge_panics_iff (c other : ContractImplementations ref)
    (σ : store) :
  (∀ r r' l, r ≠ r' → field r c = Some l → field r' other ≠ Some l) →
  Merge c other σ = None
  ↔ ∃ r, field r c = None ∧ entries σ (field r other) ≠ ∅.
Proof.
  intros Hsep. rewrite Merge_copies.
  rewrite (copies_panics contracts c other σ NoDup_contracts).
  - split.
    + intros (r & _ & H). by exists r.
    + intros (r & H). exists r. split; [apply elem_of_contracts|done].
  - intros r r' l _ _. apply Hsep.
Qed.

Lemma Merge_panics_iff_witness :
  field L1ERC721Bridge implsPartial = None
  ∧ entries storeOwn (field L1ERC721Bridge srcOwn) ≠ ∅
  ∧ Merge implsPartial srcOwn storeOwn = None.
Proof.
  assert (entries storeOwn (field L1ERC721Bridge srcOwn) ≠ ∅) as Hne.
  { intros H. apply (f_equal (λ m : AddressSet, m !! "1.0.0")) in H.
    vm_compute in H. discriminate H. }
  split; [reflexivity|]. split; [exact Hne|].
  refine (proj2 (Merge_panics_iff implsPartial srcOwn storeOwn _) _).
  - intros r r' l _. destruct r, r'; simpl; congruence.
  - exists L1ERC721Bridge. split; [reflexivity|exact Hne].
Defined.

(** X14: when the maps of [dst] are not nil, differ from one another and
    from the maps of the other contracts in [src], merging the same [src] a
    second time changes nothing: every map reads after the second [Merge]
    as it does after the first. *)
Theorem Merge_idempotent (c other : ContractImplementations ref)
    (σ σ' : store) :
  (∀ r, is_Some (field r c)) →
  (∀ r r', r ≠ r' → field r c ≠ field r' c ∧ field r c ≠ field r' other) →
  Merge c other σ = Some σ' →
  ∃ σ'', Merge c other σ' = Some σ''
         ∧ ∀ x, entries σ'' x = entries σ' x.
Proof.
  intros Hnn Hsep. rewrite !Merge_copies. intros H.
  destruct (copies_spec contracts c other σ NoDup_contracts)
    as (σ1 & E1 & Hd1 & Hs1 & _);
    [by intros r _|by intros r r' _ _; apply Hsep|].
  assert (σ1 = σ') as -> by congruence.
  destruct (copies_spec contracts c other σ' NoDup_contracts)
    as (σ'' & E2 & Hd2 & Hs2 & Hrest);
    [by intros r _|by intros r r' _ _; apply Hsep|].
  exists σ''. split; [done|]. intros x.
  destruct (decide (Exists (λ r, field r c = x) contracts)) as [He|He].
  - apply Exists_exists in He as (r & Hr & <-).
    rewrite (Hd2 _ Hr), (Hd1 _ Hr), (Hs1 _ Hr).
    by rewrite (assoc_L (∪)), (idemp_L (∪)).
  - apply Hrest. intros r Hr Hx. apply He, Exists_exists. by exists r.
Qed.

Lemma dstOwn_separate r r' :
  r ≠ r' →
  field r dstOwn ≠ field r' dstOwn ∧ field r dstOwn ≠ field r' srcOwn.
Proof. intros Hne. destruct r, r'; try done; split; discriminate. Qed.

Lemma Merge_own_run : Merge dstOwn srcOwn storeOwn = Some storeOwnAfter.
Proof. apply (bool_decide_unpack _). vm_compute. exact I. Qed.

Lemma Merge_idempotent_witness :
  Merge dstOwn srcOwn storeOwn = Some storeOwnAfter
  ∧ ∃ σ'', Merge dstOwn srcOwn storeOwnAfter = Some σ''
           ∧ ∀ x, entries σ'' x = entries storeOwnAfter x.
Proof.
  split; [exact Merge_own_run|].
  refine (Merge_idempotent dstOwn srcOwn storeOwn storeOwnAfter _
            dstOwn_separate Merge_own_run).
  intros r. destruct r; by eexists.
Defined.

End more_Merge.

(** ** [setAddressSetsIfNil] *)

Section setAddressSetsIfNil.

Implicit Types s : ContractImplementations ref * store.

Lemma make_fresh (σ : store) : σ !! (make σ).1 = None.
Proof. apply not_elem_of_dom. unfold make. simpl. apply is_fresh. Qed.

Lemma Grows_refl s : Grows s s.
Proof.
  repeat split; done || congruence || by left.
Qed.

Lemma Grows_trans (s1 s2 s3 : ContractImplementations ref * store) : Grows s1 s2 → Grows s2 s3 → Grows s1 s3.
Proof.
  intros (A1 & A2 & A3 & A4 & A5 & A6) (B1 & B2 & B3 & B4 & B5 & B6).
  split; [|split; [|split; [|split; [|split]]]].
  - intros l m H. by apply B1, A1.
  - intros l H. destruct (A2 l H) as [H'|H']; [by apply B2|].
    right. by apply B1.
  - intros r l H. by apply B3, A3.
  - intros r l H1 H3. destruct (field r s2.1) as [l2|] eqn:H2.
    + assert (l2 = l) as -> by (apply B3 in H2; congruence).
      destruct (A4 r l H1 H2) as [Hn [m Hm]]. split; [done|].
      exists m. by apply B1.
    + destruct (B4 r l H2 H3) as [Hn Hs]. split; [|done].
      destruct (s1.2 !! l) as [m|] eqn:E; [|done].
      apply A1 in E. congruence.
  - intros H. by apply B5, A5.
  - intros H r r' l Hne H1 H2.
    destruct (B6 (A5 H) r r' l Hne H1 H2) as [H1' H2'].
    by apply (A6 H r r' l).
Qed.

Lemma setIfNil_Grows r s : Grows s (setIfNil r s).
Proof.
  unfold setIfNil. destruct (field r s.1) as [l0|] eqn:Hr;
    [apply Grows_refl|].
  pose proof (make_fresh s.2) as Hf.
  unfold make in *. simpl in *. set (l0 := fresh (dom s.2)) in *.
  split; [|split; [|split; [|split; [|split]]]]; simpl.
  - intros l m H. rewrite lookup_insert_ne; [done|congruence].
  - intros l H. destruct (decide (l = l0)) as [->|Hne].
    + right. by rewrite lookup_insert_eq.
    + left. by rewrite lookup_insert_ne.
  - intros r' l H. rewrite field_assign. case_decide; [congruence|done].
  - intros r' l H1. rewrite field_assign. case_decide; [|congruence].
    intros [= <-]. split; [done|]. by rewrite lookup_insert_eq.
  - intros Ha r' l. rewrite field_assign. case_decide.
    + intros [= <-]. by rewrite lookup_insert_eq.
    + intros H'. destruct (Ha r' l H') as [m Hm]. exists m.
      rewrite lookup_insert_ne; [done|congruence].
  - intros Ha r1 r2 l Hne. rewrite !field_assign.
    repeat case_decide; subst; try done.
    + intros [= <-] H2. destruct (Ha r2 l0 H2) as [m Hm]. congruence.
    + intros H1 [= <-]. destruct (Ha r1 l0 H1) as [m Hm]. congruence.
Qed.

Lemma setIfNils_Grows rs s : Grows s (setIfNils rs s).
Proof.
  revert s. induction rs as [|r rs IH]; intros s; [apply Grows_refl|].
  eapply Grows_trans; [apply (setIfNil_Grows r)|apply IH].
Qed.

Lemma setIfNil_set r s : is_Some (field r (setIfNil r s).1).
Proof.
  unfold setIfNil. destruct (field r s.1) as [l0|] eqn:Hr; [by rewrite Hr|].
  simpl. rewrite field_assign, decide_True by done. by eexists.
Qed.

Lemma setIfNils_set rs s r : r ∈ rs → is_Some (field r (setIfNils rs s).1).
Proof.
  revert s. induction rs as [|r0 rs IH]; intros s; [by intros ?%elem_of_nil|].
  intros Hr. simpl.
  destruct (decide (r ∈ rs)) as [Hin|Hnin]; [by apply IH|].
  apply elem_of_cons in Hr as [->|?]; [|done].
  destruct (setIfNil_set r0 s) as [l Hl].
  destruct (setIfNils_Grows rs (setIfNil r0 s)) as (_ & _ & G3 & _).
  exists l. by apply G3.
Qed.

Lemma setIfNils_id rs s :
  (∀ r, r ∈ rs → is_Some (field r s.1)) → setIfNils rs s = s.
Proof.
  induction rs as [|r rs IH]; intros Hnn; [done|]. simpl.
  assert (setIfNil r s = s) as ->.
  { unfold setIfNil. destruct (Hnn r) as [l ->]; [by left|done]. }
  apply IH. intros r' Hr'. apply Hnn. by right.
Qed.

Lemma Grows_entries s s' x : Grows s s' → entries s'.2 x = entries s.2 x.
Proof.
  intros (G1 & G2 & _). destruct x as [l|]; [|done]. unfold entries.
  destruct (s.2 !! l) as [m|] eqn:E.
  - by rewrite (G1 _ _ E).
  - by destruct (G2 _ E) as [->| ->].
Qed.

Lemma setIfNils_reads s r :
  entries (setIfNils contracts s).2 (field r (setIfNils contracts s).1)
  = entries s.2 (field r s.1).
Proof.
  pose proof (setIfNils_Grows contracts s) as HG.
  pose proof HG as (_ & _ & G3 & G4 & _).
  destruct (field r s.1) as [l|] eqn:Hl.
  - rewrite (G3 _ _ Hl). apply (Grows_entries _ _ (Some l) HG).
  - destruct (setIfNils_set contracts s r (elem_of_contracts r)) as [l Hl'].
    rewrite Hl', (Grows_entries _ _ (Some l) HG). cbn [entries].
    by destruct (G4 _ _ Hl Hl') as [-> _].
Qed.

(** X15: after [setAddressSetsIfNil] no field is nil; a field that was
    not nil is the same map; the maps that were in the store are untouched,
    so every field reads the entries it read before (none for a nil field);
    and, when the fields referred to maps of the store, each new map is a
    map that was not there and that no other field has. *)
Theorem setAddressSetsIfNil_spec (impls : ContractImplementations ref)
    (σ : store) :
  (∀ r, is_Some (field r (setAddressSetsIfNil impls σ).1))
  ∧ (∀ r, is_Some (field r impls) →
          field r (setAddressSetsIfNil impls σ).1 = field r impls)
  ∧ (∀ l m, σ !! l = Some m → (setAddressSetsIfNil impls σ).2 !! l = Some m)
  ∧ (∀ r, entries (setAddressSetsIfNil impls σ).2
                  (field r (setAddressSetsIfNil impls σ).1)
          = entries σ (field r impls))
  ∧ (allocated σ impls →
     allocated (setAddressSetsIfNil impls σ).2 (setAddressSetsIfNil impls σ).1
     ∧ ∀ r r' l,
         r ≠ r' → field r impls = None →
         field r (setAddressSetsIfNil impls σ).1 = Some l →
         σ !! l = None
         ∧ field r' (setAddressSetsIfNil impls σ).1 ≠ Some l).
Proof.
  change (setAddressSetsIfNil impls σ) with (setIfNils contracts (impls, σ)).
  pose proof (setIfNils_Grows contracts (impls, σ)) as HG.
  pose proof HG as (G1 & G2 & G3 & G4 & G5 & G6). cbn [fst snd] in *.
  assert (∀ r, is_Some (field r (setIfNils contracts (impls, σ)).1)) as Hnn
    by (intros r; apply setIfNils_set, elem_of_contracts).
  split; [done|]. split; [|split; [done|split]].
  - intros r [l Hl]. rewrite Hl. by apply G3.
  - intros r. apply (setIfNils_reads (impls, σ)).
  - intros Ha. split; [by apply G5|].
    intros r r' l Hne Hn Hl. split; [by apply (G4 r l)|].
    intros Hl'. destruct (G6 Ha r r' l Hne Hl Hl') as [? _]. congruence.
Qed.

(** X16: [setAddressSetsIfNil] changes nothing when no field is nil, in
    the struct or in the store; so a second call after a first changes
    nothing. *)
Theorem setAddressSetsIfNil_idempotent (impls : ContractImplementations ref)
    (σ : store) :
  ((∀ r, is_Some (field r impls)) →
   setAddressSetsIfNil impls σ = (impls, σ))
  ∧ setAddressSetsIfNil (setAddressSetsIfNil impls σ).1
                        (setAddressSetsIfNil impls σ).2
    = setAddressSetsIfNil impls σ.
Proof.
  assert (∀ i t, setAddressSetsIfNil i t = setIfNils contracts (i, t)) as E
    by done.
  rewrite !E. split.
  - intros Hnn. by apply setIfNils_id.
  - rewrite <- surjective_pairing. apply setIfNils_id.
    intros r _. apply setIfNils_set, elem_of_contracts.
Qed.

End setAddressSetsIfNil.

(** ** [Copy] *)

Section Copy.

Implicit Types s : ContractImplementations ref * store.

Lemma Copy_clones c σ : Copy c σ = clones contracts c (uniform None, σ).
Proof. reflexivity. Qed.

Lemma Clone_nil (σ : store) : Clone None σ = (None, σ).
Proof. done. Qed.

Lemma Clone_map (σ : store) l0 :
  Clone (Some l0) σ
  = (Some (fresh (dom σ)), <[fresh (dom σ) := entries σ (Some l0)]> σ).
Proof. unfold Clone. by rewrite list_to_map_to_list. Qed.

Lemma fresh_store (σ : store) : σ !! fresh (dom σ) = None.
Proof. apply not_elem_of_dom, is_fresh. Qed.

(** The clones for a list of contracts, started from any struct and from
    a store that has the maps of [c]. *)
Lemma clones_spec rs (c : ContractImplementations ref) s :
  NoDup rs →
  allocated s.2 c →
  (∀ l m, s.2 !! l = Some m → (clones rs c s).2 !! l = Some m)
  ∧ (∀ r, r ∉ rs → field r (clones rs c s).1 = field r s.1)
  ∧ (∀ r, r ∈ rs → field r c = None → field r (clones rs c s).1 = None)
  ∧ (∀ r, r ∈ rs → is_Some (field r c) →
          ∃ l, field r (clones rs c s).1 = Some l
               ∧ s.2 !! l = None
               ∧ (clones rs c s).2 !! l = Some (entries s.2 (field r c)))
  ∧ (∀ r r' l, r ∈ rs → r' ∈ rs → r ≠ r' →
               field r (clones rs c s).1 = Some l →
               field r' (clones rs c s).1 ≠ Some l).
Proof.
  revert s. induction rs as [|r rs IH]; intros s Hnd Ha.
  { split; [done|]. split; [done|].
    split; [by intros r ?%elem_of_nil|].
    split; [by intros r ?%elem_of_nil|]. by intros r r' l ?%elem_of_nil. }
  apply NoDup_cons in Hnd as [Hr Hnd].
  assert (clones (r :: rs) c s
          = clones rs c (assign r (Clone (field r c) s.2).1 s.1,
                         (Clone (field r c) s.2).2)) as -> by done.
  destruct (field r c) as [l0|] eqn:Hc.
  - (* a map: cloned at a new location *)
    rewrite Clone_map. cbn [fst snd].
    pose proof (fresh_store s.2) as Hf. set (l := fresh (dom s.2)) in *.
    match goal with |- context [clones rs c ?x] => set (s1 := x) end.
    assert (∀ l' m, s.2 !! l' = Some m → s1.2 !! l' = Some m) as Hext.
    { intros l' m H. unfold s1. cbn [snd].
      rewrite lookup_insert_ne; [done|congruence]. }
    assert (allocated s1.2 c) as Ha1.
    { intros r' l' H. destruct (Ha r' l' H) as [m Hm]. exists m.
      by apply Hext. }
    destruct (IH s1 Hnd Ha1) as (K1 & K2 & K3 & K4 & K5).
    assert (field r (clones rs c s1).1 = Some l) as Hrl.
    { rewrite (K2 r Hr). unfold s1. cbn [fst].
      by rewrite field_assign, decide_True. }
    assert (∀ r' l', r' ∈ rs → field r' (clones rs c s1).1 = Some l' →
                     l' ≠ l) as Hnew.
    { intros r' l' Hr' H ->.
      destruct (field r' c) as [l1|] eqn:Hc'.
      - destruct (K4 r' Hr') as (l2 & H2 & Hn & _); [by rewrite Hc'|].
        assert (l2 = l) as -> by congruence.
        unfold s1 in Hn. cbn [snd] in Hn. by rewrite lookup_insert_eq in Hn.
      - rewrite (K3 r' Hr' Hc') in H. done. }
    split; [|split; [|split; [|split]]].
    + intros l' m H. by apply K1, Hext.
    + intros r' Hr'. apply not_elem_of_cons in Hr' as [Hne Hr'].
      rewrite (K2 r' Hr'). unfold s1. cbn [fst].
      by rewrite field_assign, decide_False.
    + intros r' [->|Hr']%elem_of_cons Hn; [congruence|by apply K3].
    + intros r' [->|Hr']%elem_of_cons Hs.
      * exists l. rewrite Hc. repeat split; [done..|].
        apply K1. unfold s1. cbn [snd]. by rewrite lookup_insert_eq.
      * destruct (K4 r' Hr' Hs) as (l' & H1 & H2 & H3).
        exists l'. split; [done|].
        unfold s1 in H2. cbn [snd] in H2.
        apply lookup_insert_None in H2 as [H2 Hne]. split; [done|].
        rewrite H3. f_equal. destruct (field r' c) as [l1|] eqn:Hc'; [|done].
        unfold entries, s1. cbn [snd].
        rewrite lookup_insert_ne; [done|].
        intros <-. destruct (Ha r' l Hc') as [m Hm]. congruence.
    + intros r1 r2 l' [->|H1]%elem_of_cons [->|H2]%elem_of_cons Hne;
        [done|..].
      * rewrite Hrl. intros [= <-] H. by apply (Hnew r2 l H2).
      * intros H. rewrite Hrl. intros [= <-]. by apply (Hnew r1 l H1).
      * by apply K5.
  - (* nil stays nil *)
    rewrite Clone_nil. cbn [fst snd].
    match goal with |- context [clones rs c ?x] => set (s1 := x) end.
    assert (allocated s1.2 c) as Ha1 by done.
    destruct (IH s1 Hnd Ha1) as (K1 & K2 & K3 & K4 & K5).
    assert (field r (clones rs c s1).1 = None) as Hrl.
    { rewrite (K2 r Hr). unfold s1. cbn [fst].
      by rewrite field_assign, decide_True. }
    split; [|split; [|split; [|split]]].
    + done.
    + intros r' Hr'. apply not_elem_of_cons in Hr' as [Hne Hr'].
      rewrite (K2 r' Hr'). unfold s1. cbn [fst].
      by rewrite field_assign, decide_False.
    + intros r' [->|Hr']%elem_of_cons Hn; [done|by apply K3].
    + intros r' [->|Hr']%elem_of_cons Hs.
      * rewrite Hc in Hs. by destruct Hs.
      * by apply K4.
    + intros r1 r2 l' [->|H1]%elem_of_cons [->|H2]%elem_of_cons Hne;
        [done|..].
      * by rewrite Hrl.
      * intros _. by rewrite Hrl.
      * by apply K5.
Qed.

(** X17: [Copy] of a struct whose maps are in the store keeps nil fields
    nil and gives every other field a new map with the entries of the
    original; the new maps were not in the store, no two fields share one,
    and the maps that were in the store are untouched. *)
Theorem Copy_spec (c : ContractImplementations ref) (σ : store) :
  allocated σ c →
  (∀ r, field r (Copy c σ).1 = None ↔ field r c = None)
  ∧ (∀ r, entries (Copy c σ).2 (field r (Copy c σ).1)
          = entries σ (field r c))
  ∧ (∀ l m, σ !! l = Some m → (Copy c σ).2 !! l = Some m)
  ∧ (∀ r l, field r (Copy c σ).1 = Some l →
            σ !! l = None
            ∧ ∀ r', r' ≠ r → field r' (Copy c σ).1 ≠ Some l).
Proof.
  intros Ha. rewrite Copy_clones.
  destruct (clones_spec contracts c (uniform None, σ) NoDup_contracts Ha)
    as (K1 & _ & K3 & K4 & K5). cbn [fst snd] in *.
  assert (∀ r, field r c = None
               → field r (clones contracts c (uniform None, σ)).1 = None)
    as HN by (intros r; apply K3, elem_of_contracts).
  assert (∀ r, is_Some (field r c) →
               ∃ l, field r (clones contracts c (uniform None, σ)).1 = Some l
                    ∧ σ !! l = None
                    ∧ (clones contracts c (uniform None, σ)).2 !! l
                      = Some (entries σ (field r c)))
    as HS by (intros r; apply K4, elem_of_contracts).
  split; [|split; [|split; [done|]]].
  - intros r. split; [|apply HN].
    destruct (field r c) as [l0|] eqn:Hc; [|done].
    destruct (HS r) as (l & -> & _); [by rewrite Hc|done].
  - intros r. destruct (field r c) as [l0|] eqn:Hc.
    + destruct (HS r) as (l & -> & _ & Hl); [by rewrite Hc|].
      unfold entries at 1. by rewrite Hl, Hc.
    + by rewrite (HN r Hc).
  - intros r l Hl. split.
    + destruct (field r c) as [l0|] eqn:Hc.
      * destruct (HS r) as (l' & Hl' & Hn & _); [by rewrite Hc|]. congruence.
      * rewrite (HN r Hc) in Hl. done.
    + intros r' Hne. apply (K5 r r' l); [apply elem_of_contracts..|done|done].
Qed.

Lemma allocated_implsPartial : allocated storePartial implsPartial.
Proof. intros r l. destruct r; simpl; intros [= <-]; by eexists. Qed.

Lemma Copy_spec_witness :
  allocated storePartial implsPartial
  ∧ entries (Copy implsPartial storePartial).2
            (field OptimismPortal (Copy implsPartial storePartial).1)
    = entries storePartial (Some 5)
  ∧ field L1ERC721Bridge (Copy implsPartial storePartial).1 = None.
Proof.
  split; [exact allocated_implsPartial|].
  destruct (Copy_spec implsPartial storePartial allocated_implsPartial)
    as (H1 & H2 & _).
  split; [exact (H2 OptimismPortal)|].
  exact (proj2 (H1 L1ERC721Bridge) eq_refl).
Defined.

(** X18: a [Merge] into a [Copy] leaves the original alone: every map
    that was in the store before the [Copy] is the same after the [Merge],
    the maps of the original and of [src] among them.  When no field of the
    original is nil, this [Merge] does not panic, and each map of the copy
    then gives a key the address [src] has for it, else the address the
    original has. *)
Theorem Copy_Merge (c other : ContractImplementations ref) (σ : store) :
  allocated σ c →
  allocated σ other →
  (∀ σ', Merge (Copy c σ).1 other (Copy c σ).2 = Some σ' →
         ∀ l m, σ !! l = Some m → σ' !! l = Some m)
  ∧ ((∀ r, is_Some (field r c)) →
     ∃ σ', Merge (Copy c σ).1 other (Copy c σ).2 = Some σ'
           ∧ ∀ r k, entries σ' (field r (Copy c σ).1) !! k
                    = match entries σ (field r other) !! k with
                      | Some addr => Some addr
                      | None => entries σ (field r c) !! k
                      end).
Proof.
  intros Ha Ho. rewrite Copy_clones.
  destruct (clones_spec contracts c (uniform None, σ) NoDup_contracts Ha)
    as (K1 & _ & K3 & K4 & K5). cbn [fst snd] in *.
  set (s1 := clones contracts c (uniform None, σ)) in *.
  assert (∀ r l, field r s1.1 = Some l → σ !! l = None) as Hnew.
  { intros r l Hl. destruct (field r c) as [l0|] eqn:Hc.
    - destruct (K4 r (elem_of_contracts r)) as (l' & Hl' & Hn & _);
        [by rewrite Hc|]. congruence.
    - rewrite (K3 r (elem_of_contracts r) Hc) in Hl. done. }
  split.
  - intros σ'. rewrite Merge_copies. intros HM l m Hl.
    destruct (copies_writes _ _ _ _ _ HM) as [Hw _].
    rewrite Hw; [by apply K1|].
    intros r _ Hr. apply Hnew in Hr. congruence.
  - intros Hnn. rewrite Merge_copies.
    destruct (copies_spec contracts s1.1 other s1.2 NoDup_contracts)
      as (σ' & HM & Hd & _).
    { intros r _. destruct (K4 r (elem_of_contracts r) (Hnn r))
        as (l & -> & _). by eexists. }
    { intros r r' _ _ Hne.
      destruct (K4 r (elem_of_contracts r) (Hnn r)) as (l & Hl & Hn & _).
      rewrite Hl. split.
      - apply not_eq_sym.
        apply (K5 r r' l); [apply elem_of_contracts..|done|done].
      - intros Hr'. symmetry in Hr'.
        destruct (Ho r' l Hr') as [m Hm]. congruence. }
    exists σ'. split; [done|]. intros r k.
    rewrite (Hd r (elem_of_contracts r)), lookup_union.
    assert (entries s1.2 (field r other) = entries σ (field r other)) as ->.
    { destruct (field r other) as [l|] eqn:Hl; [|done].
      destruct (Ho r l Hl) as [m Hm]. unfold entries.
      by rewrite Hm, (K1 _ _ Hm). }
    assert (entries s1.2 (field r s1.1) = entries σ (field r c)) as ->.
    { destruct (K4 r (elem_of_contracts r) (Hnn r)) as (l & -> & _ & Hl).
      unfold entries at 1. by rewrite Hl. }
    destruct (entries σ (field r other) !! k),
      (entries σ (field r c) !! k); done.
Qed.

Lemma Copy_Merge_witness :
  allocated storePartial implsPartial
  ∧ ∀ σ', Merge (Copy implsPartial storePartial).1 implsPartial
                (Copy implsPartial storePartial).2 = Some σ' →
          σ' !! 0 = Some (<["1.0.0" := 1%N]> ∅).
Proof.
  split; [exact allocated_implsPartial|].
  intros σ' HM.
  exact (proj1 (Copy_Merge implsPartial implsPartial storePartial
                  allocated_implsPartial allocated_implsPartial)
           σ' HM 0 _ eq_refl).
Defined.

End Copy.

(** ** [newContractImplementations]: the two structs after decoding *)

Section load.

Implicit Types s : ContractImplementations ref * store.

(** X19: the steps of [newContractImplementations] that follow the
    decoding.  [globals] is decoded into maps of its own (or nil fields)
    and passed to [setAddressSetsIfNil]; [impls] is then decoded into maps
    that are none of those of [globals], and passed to
    [setAddressSetsIfNil]; the [Merge] of the two then does not panic, and
    every map of [globals] gives a key the address the network file has
    for it, else the address the global file has. *)
Theorem newContractImplementations_merge
    (globals impls : ContractImplementations ref) (σ : store) :
  allocated σ globals →
  ownMaps globals →
  allocated (setAddressSetsIfNil globals σ).2 impls →
  apart (setAddressSetsIfNil globals σ).1 impls →
  ∃ σ',
    Merge (setAddressSetsIfNil globals σ).1
          (setAddressSetsIfNil impls (setAddressSetsIfNil globals σ).2).1
          (setAddressSetsIfNil impls (setAddressSetsIfNil globals σ).2).2
    = Some σ'
    ∧ ∀ r k,
        entries σ' (field r (setAddressSetsIfNil globals σ).1) !! k
        = match entries (setAddressSetsIfNil globals σ).2 (field r impls) !! k
          with
          | Some addr => Some addr
          | None => entries σ (field r globals) !! k
          end.
Proof.
  assert (∀ i t, setAddressSetsIfNil i t = setIfNils contracts (i, t)) as E
    by done.
  rewrite !E. clear E.
  set (sg := setIfNils contracts (globals, σ)).
  intros Hag Hown.
  pose proof (setIfNils_Grows contracts (globals, σ)) as HG.
  fold sg in HG. pose proof HG as (_ & _ & _ & _ & G5 & G6).
  cbn [fst snd] in G5, G6.
  assert (∀ r, is_Some (field r sg.1)) as Hnng
    by (intros r; apply setIfNils_set, elem_of_contracts).
  intros Hai Hap.
  set (si := setIfNils contracts (impls, sg.2)).
  pose proof (setIfNils_Grows contracts (impls, sg.2)) as HI.
  fold si in HI. pose proof HI as (_ & _ & I3 & I4 & _).
  cbn [fst snd] in I3, I4.
  assert (∀ r, is_Some (field r si.1)) as Hnni
    by (intros r; apply setIfNils_set, elem_of_contracts).
  rewrite Merge_copies.
  destruct (copies_spec contracts sg.1 si.1 si.2 NoDup_contracts)
    as (σ' & HM & Hd & _).
  { by intros r _. }
  { intros r r' _ _ Hne. destruct (Hnng r) as [l Hl]. rewrite Hl. split.
    - intros Hl'. symmetry in Hl'.
      destruct (G6 Hag r r' l Hne Hl Hl') as [H1 H2].
      by apply (Hown r r' l).
    - intros Hl'. symmetry in Hl'.
      destruct (field r' impls) as [l'|] eqn:Hi.
      + pose proof (I3 _ _ Hi) as Hi'.
        assert (l' = l) as -> by congruence.
        by apply (Hap r r' l).
      + destruct (I4 r' l Hi Hl') as [Hn _].
        destruct (G5 Hag r l Hl) as [m Hm]. congruence. }
  exists σ'. split; [done|]. intros r k.
  rewrite (Hd r (elem_of_contracts r)), lookup_union.
  assert (entries si.2 (field r si.1) = entries sg.2 (field r impls)) as ->
    by apply (setIfNils_reads (impls, sg.2) r).
  assert (entries si.2 (field r sg.1) = entries σ (field r globals)) as ->.
  { rewrite (Grows_entries _ _ (field r sg.1) HI).
    apply (setIfNils_reads (globals, σ) r). }
  destruct (entries sg.2 (field r impls) !! k),
    (entries σ (field r globals) !! k); done.
Qed.

Lemma allocated_storeDecoded : allocated storeDecoded implsPartial.
Proof. intros r l. destruct r; simpl; intros [= <-]; by eexists. Qed.

Lemma ownMaps_implsPartial : ownMaps implsPartial.
Proof. intros r r' l Hne. destruct r, r'; simpl; congruence. Qed.

Lemma newContractImplementations_merge_witness :
  allocated storeDecoded implsPartial
  ∧ ownMaps implsPartial
  ∧ apart (setAddressSetsIfNil implsPartial storeDecoded).1 implsNetwork
  ∧ ∃ σ',
      Merge (setAddressSetsIfNil implsPartial storeDecoded).1
        (setAddressSetsIfNil implsNetwork
           (setAddressSetsIfNil implsPartial storeDecoded).2).1
        (setAddressSetsIfNil implsNetwork
           (setAddressSetsIfNil implsPartial storeDecoded).2).2
      = Some σ'
      ∧ entries σ' (field L1CrossDomainMessenger
                      (setAddressSetsIfNil implsPartial storeDecoded).1)
        !! "3.0.0" = Some 7%N.
Proof.
  assert (apart (setAddressSetsIfNil implsPartial storeDecoded).1
                implsNetwork) as Hap.
  { intros r r' l Hl. destruct r'; simpl; try discriminate.
    intros [= <-]. revert Hl. destruct r; vm_compute; discriminate. }
  assert (allocated (setAddressSetsIfNil implsPartial storeDecoded).2
                    implsNetwork) as Hal.
  { intros r l. destruct r; simpl; try discriminate.
    intros [= <-]. vm_compute. by eexists. }
  split; [exact allocated_storeDecoded|].
  split; [exact ownMaps_implsPartial|]. split; [exact Hap|].
  destruct (newContractImplementations_merge implsPartial implsNetwork
              storeDecoded allocated_storeDecoded ownMaps_implsPartial
              Hal Hap) as (σ' & HM & Hk).
  exists σ'. split; [exact HM|].
  refine (eq_trans (Hk L1CrossDomainMessenger "3.0.0") _).
  vm_compute. reflexivity.
Defined.

End load.

(** ** [Merge], then [Get] and [resolve] *)

Section Merge_then.

Import semver.

Lemma resolve_ok_iff (a : AddressSet) version :
  (resolve a version).2 = None
  ↔ ∃ k, storedVersion a k
         ∧ (0 <= Compare k (canonicalizeSemver version))%Z.
Proof.
  destruct (resolve_cases a version)
    as [[He Hr]|[(_ & Hall & Hr)|[(k & Hk & H0 & _ & Hr)
                                |(_ & k & Hk & H1 & _ & Hr)]]];
    rewrite Hr; simpl.
  - split; [done|]. intros (k & (key & [x Hx] & _) & _).
    by rewrite He, lookup_empty in Hx.
  - split; [done|]. intros (k & Hk & Hge). specialize (Hall _ Hk). lia.
  - split; [|done]. intros _. exists k. split; [done|lia].
  - split; [|done]. intros _. exists k. split; [done|lia].
Qed.

(** X20: [Merge] never spoils a resolution: for every map of the store
    and every target, if [resolve] succeeds on the map before [Merge], it
    succeeds on it after. *)
Theorem Merge_keeps_resolvable (c other : ContractImplementations ref)
    (σ σ' : store) (x : ref) (version : string) :
  Merge c other σ = Some σ' →
  (resolve (entries σ x) version).2 = None →
  (resolve (entries σ' x) version).2 = None.
Proof.
  rewrite Merge_copies. intros HM.
  destruct (copies_writes _ _ _ _ _ HM) as [_ Hk].
  rewrite !resolve_ok_iff. intros (k & (key & Hkey & Hc) & Hge).
  exists k. split; [|done]. exists key. split; [by apply Hk|done].
Qed.

Lemma Merge_keeps_resolvable_witness :
  (resolve (entries storeShared (Some 7)) "0.5.0").2 = None
  ∧ (resolve (entries storeSharedAfter (Some 7)) "0.5.0").2 = None.
Proof.
  assert ((resolve (entries storeShared (Some 7)) "0.5.0").2 = None) as H
    by (vm_compute; reflexivity).
  split; [exact H|].
  exact (Merge_keeps_resolvable dstShared srcShared storeShared
           storeSharedAfter (Some 7) "0.5.0" Merge_shared_run H).
Defined.

(** X21: [Get] on a merged map.  With the maps of [dst] not nil and
    different from one another and from the maps of the other contracts in
    [src]: when [src] has the key without its ["v"], [Get] returns what it
    returns on [src]; when [src] has the key only with the ["v"] and [dst]
    has it without, [Get] returns the address of [dst], which the entry of
    [src] does not replace; when [src] has neither spelling, [Get] returns
    what it returned on [dst]. *)
Theorem Merge_Get (c other : ContractImplementations ref) (σ σ' : store)
    (r : contract) (key : string) :
  (∀ r, is_Some (field r c)) →
  (∀ r r', r ≠ r' → field r c ≠ field r' c ∧ field r c ≠ field r' other) →
  Merge c other σ = Some σ' →
  (is_Some (entries σ (field r other)
            !! strings.TrimPrefix (canonicalizeSemver key) "v") →
   Get (entries σ' (field r c)) key = Get (entries σ (field r other)) key)
  ∧ (∀ addr,
       entries σ (field r other)
         !! strings.TrimPrefix (canonicalizeSemver key) "v" = None →
       entries σ (field r c)
         !! strings.TrimPrefix (canonicalizeSemver key) "v" = Some addr →
       Get (entries σ' (field r c)) key = addr)
  ∧ (entries σ (field r other)
       !! strings.TrimPrefix (canonicalizeSemver key) "v" = None →
     entries σ (field r other) !! canonicalizeSemver key = None →
     Get (entries σ' (field r c)) key = Get (entries σ (field r c)) key).
Proof.
  intros Hnn Hsep. rewrite Merge_copies. intros HM.
  destruct (copies_spec contracts c other σ NoDup_contracts)
    as (σ1 & E1 & Hd & _);
    [by intros r0 _|by intros r0 r' _ _; apply Hsep|].
  assert (σ1 = σ') as -> by congruence.
  rewrite (Hd r (elem_of_contracts r)), !Get_canonical, !lookup_union.
  split; [|split].
  - intros [a Ha]. rewrite Ha.
    by destruct (entries σ (field r c) !! _).
  - intros addr -> ->. done.
  - intros -> ->.
    destruct (entries σ (field r c) !! strings.TrimPrefix _ _); [done|].
    by destruct (entries σ (field r c) !! canonicalizeSemver key).
Qed.

Lemma Merge_spell_run : Merge dstOwn srcOwn storeSpell = Some storeSpellAfter.
Proof. apply (bool_decide_unpack _). vm_compute. exact I. Qed.

Lemma Merge_Get_witness :
  Get (entries storeSpell (field L1CrossDomainMessenger srcOwn)) "1.0.0"
  = 2%N
  ∧ Get (entries storeSpellAfter (field L1CrossDomainMessenger dstOwn))
        "1.0.0" = 1%N.
Proof.
  split; [reflexivity|].
  refine (proj1 (proj2 (Merge_Get dstOwn srcOwn storeSpell storeSpellAfter
    L1CrossDomainMessenger "1.0.0" _ dstOwn_separate Merge_spell_run))
    1%N eq_refl eq_refl).
  intros r. destruct r; by eexists.
Defined.

End Merge_then.
